(** * Dashboard: job matching and attendance percentage

    A shallow embedding of [generateJobMatches] and of the attendance
    computation of the [Dashboard] component (src/unnamed/part_001).

    Numbers.  A JavaScript number is a double: a rational of the binary64
    format.  The embedding keeps numbers in [Q] and rounds where the code
    does: [fl] rounds a rational to the nearest double, a tie going to the
    even significand, and [Number_div] and [Number_mul] are the exact
    quotient and product rounded by [fl].  The attendance percentage and
    the product [Math.random() * 30] are computed with them.  The
    proficiency levels handed to [generateJobMatches] are integers (the
    component draws them as floor(random x 30) + 70), so a [number] read
    from the array is a [Z], and [undefined], read past its end, is [None].
    The match score [proficiency / option.minScore * 100] is the one
    quotient taken exactly: for [proficiency >= minScore > 0] both
    arithmetics give at least 100 before the cap, hence the same score
    ([matchScore_in_doubles]).  [Math.round] is the nearest integer, a tie
    going up; it is exact on a double.

    Objects.  [jobRoles] is an object literal: a property read on it finds
    the four own keys first and the members of [Object.prototype] after
    them, as a property read in JavaScript does.

    Errors.  A call either returns a value or throws; the only throw the
    code can reach is the [TypeError] of calling a method that is not
    there. *)

From Stdlib Require Import ZArith QArith Qround Qpower Lqa Floats.
From stdpp Require Import base decidable option list gmap strings pretty sorting.

Local Open Scope string_scope.
Local Open Scope Z_scope.
Local Open Scope list_scope.

(** ** Outcomes of a call: a value, or a thrown error *)

Inductive jsError : Type :=
  | TypeError (message : string).

Inductive outcome (A : Type) : Type :=
  | Returns (value : A)
  | Throws (error : jsError).
Arguments Returns {A} value.
Arguments Throws {A} error.

(** Sequencing: a thrown error skips what follows.  The instances give
    the notation [x ← c; k]. *)
Global Instance outcome_ret : MRet outcome := @Returns.

Global Instance outcome_bind : MBind outcome := λ A B k c,
  match c with
  | Returns a => k a
  | Throws e => Throws e
  end.

(** ** Data *)

(** An entry of the role table, [{ role, company, minScore }]. *)
Record RoleOption : Type := mkRoleOption {
  option_role : string;
  option_company : string;
  minScore : Z
}.

(** [JobMatch] of '../types', with the four fields the function fills in. *)
Record JobMatch : Type := mkJobMatch {
  role : string;
  company : string;
  matchScore : Z;
  recommendation : string
}.

(** The attendance records are read through their [present] field only. *)
Record AttendanceRecord : Type := mkAttendanceRecord {
  present : bool
}.

(** ** The numeric primitives *)

(** [Math.round]: the nearest integer, halves rounded towards +infinity. *)
Definition Math_round (x : Q) : Z := Qfloor (x + (1 # 2))%Q.

Definition Math_min (a b : Z) : Z := Z.min a b.

(** ** Double precision

    A positive double is [m * 2^t] with an integer significand [m] below
    [2^53] and an exponent [t] of at least -1074.  [binade x] is the
    exponent [e] with [2^e <= x < 2^(e+1)]; the doubles next to [x] are the
    multiples of [2^(e-52)], or of [2^-1074] where [x] is subnormal.  The
    numbers of this program stay far below [2^1024], and no overflow is
    embedded. *)

Definition pow2 (t : Z) : Q := (2 ^ t)%Q.

Definition binade (x : Q) : Z :=
  let e0 := Z.log2 (Qnum x) - Z.log2 (Zpos (Qden x)) in
  if Qle_bool (pow2 e0) x then e0 else e0 - 1.

(** The nearest integer, a tie going to the even one. *)
Definition roundNearestEven (y : Q) : Z :=
  let f := Qfloor y in
  match (y - inject_Z f ?= 1 # 2)%Q with
  | Lt => f
  | Gt => f + 1
  | Eq => if Z.even f then f else f + 1
  end.

Definition ulpExponent (x : Q) : Z := Z.max (binade x - 52) (-1074).

(** The double nearest to [x]. *)
Definition fl (x : Q) : Q :=
  match Qnum x with
  | Z0 => 0%Q
  | Zpos _ =>
      let t := ulpExponent x in
      Qred (inject_Z (roundNearestEven (x / pow2 t)) * pow2 t)
  | Zneg _ =>
      let t := ulpExponent (- x) in
      Qred (- (inject_Z (roundNearestEven (- x / pow2 t)) * pow2 t))
  end.

(** [x / y] and [x * y] on doubles.  The attendance figure divides by a
    length that is not 0; a quotient by 0 is not embedded. *)
Definition Number_div (x y : Q) : Q := fl (x / y).

Definition Number_mul (x y : Q) : Q := fl (x * y).

(** [x] is a double. *)
Definition representable (x : Q) : Prop := fl x == x.

(** The binary64 numbers of the kernel, to compare [fl] with: the rational
    a finite float stands for, and the float of an integer below [2^53]. *)
Definition Q_of_float (f : float) : option Q :=
  match Prim2SF f with
  | S754_zero _ => Some 0%Q
  | S754_finite sign m e =>
      Some (Qred ((if sign then -1 else 1) * inject_Z (Zpos m) * pow2 e))
  | _ => None
  end.

Definition float_of_Z (z : Z) : float := PrimFloat.of_uint63 (Uint63.of_Z z).

(** The quotient [k / n] and its product with 100 are the same in the
    kernel's floats and in the embedding. *)
Definition same_as_binary64 (k n : Z) : bool :=
  let quotient := (float_of_Z k / float_of_Z n)%float in
  match Q_of_float quotient, Q_of_float (quotient * float_of_Z 100)%float with
  | Some q, Some p =>
      Qeq_bool q (Number_div (inject_Z k) (inject_Z n))
      && Qeq_bool p (Number_mul (Number_div (inject_Z k) (inject_Z n)) 100)
  | _, _ => false
  end.

(** The counts [k <= n] for the totals from 1 to [N]. *)
Definition counts_up_to (N : nat) : list (Z * Z) :=
  flat_map (λ n, (λ k, (Z.of_nat k, Z.of_nat n)) <$> seq 0 (S n)) (seq 1 N).

(** ** Arrays *)

(** [array.forEach(callback)] where the callback works on the local array
    [matches]: the elements are visited in order with their index, and an
    error thrown by the callback ends the loop. *)
Fixpoint forEach_from {A : Type}
    (callback : A → nat → list JobMatch → outcome (list JobMatch))
    (array : list A) (index : nat) (matches : list JobMatch)
  : outcome (list JobMatch) :=
  match array with
  | [] => Returns matches
  | x :: rest =>
      matches' ← callback x index matches;
      forEach_from callback rest (S index) matches'
  end.

Definition forEach {A : Type}
    (array : list A)
    (callback : A → nat → list JobMatch → outcome (list JobMatch))
    (matches : list JobMatch) : outcome (list JobMatch) :=
  forEach_from callback array 0%nat matches.

(** [matches.push(m)] *)
Definition push (matches : list JobMatch) (m : JobMatch) : list JobMatch :=
  matches ++ [m].

(** [array.sort(compare)]: the sort of an array is stable, an element goes
    in front of another one only when [compare] says so.  [insert_sorted]
    puts [x], which stood before all of [sorted] in the array, at its place:
    before the first element it does not compare greater than. *)
Fixpoint insert_sorted {A : Type} (compare : A → A → Z) (x : A) (sorted : list A)
  : list A :=
  match sorted with
  | [] => [x]
  | y :: rest =>
      if bool_decide (compare x y ≤ 0)%Z then x :: y :: rest
      else y :: insert_sorted compare x rest
  end.

Fixpoint sort {A : Type} (compare : A → A → Z) (array : list A) : list A :=
  match array with
  | [] => []
  | x :: rest => insert_sorted compare x (sort compare rest)
  end.

(** [array.slice(start, stop)], for indices that are not negative. *)
Definition slice {A : Type} (start stop : nat) (array : list A) : list A :=
  take (stop - start) (drop start array).

(** ** The role table and the property read on it *)

Definition jobRoles : gmap string (list RoleOption) :=
  list_to_map [
    ("Python", [
      mkRoleOption "Data Scientist" "DataCorp Analytics" 85;
      mkRoleOption "Machine Learning Engineer" "AI Solutions Ltd" 90;
      mkRoleOption "Backend Developer" "TechStack Inc" 80 ]);
    ("JavaScript", [
      mkRoleOption "Frontend Developer" "WebTech Solutions" 80;
      mkRoleOption "Full Stack Developer" "Digital Innovations" 85;
      mkRoleOption "React Developer" "Modern Apps Inc" 82 ]);
    ("Java", [
      mkRoleOption "Software Engineer" "Enterprise Systems" 85;
      mkRoleOption "Android Developer" "Mobile Solutions" 88;
      mkRoleOption "Backend Developer" "Cloud Services Ltd" 82 ]);
    ("C++", [
      mkRoleOption "Systems Engineer" "Hardware Solutions" 88;
      mkRoleOption "Game Developer" "Gaming Studios" 85;
      mkRoleOption "Embedded Systems Developer" "IoT Technologies" 90 ])
  ].

(** The property names every object literal inherits from
    [Object.prototype].  Each of them reads as a function, or for
    [__proto__] as the prototype object itself: a truthy value that is
    not an array and has no [forEach]. *)
Definition Object_prototype : list string :=
  [ "constructor"; "hasOwnProperty"; "isPrototypeOf"; "propertyIsEnumerable";
    "toLocaleString"; "toString"; "valueOf"; "__proto__";
    "__defineGetter__"; "__defineSetter__"; "__lookupGetter__";
    "__lookupSetter__" ].

(** What [jobRoles[skill] || []] can evaluate to: an array of options, a
    member of the prototype, or [undefined]. *)
Inductive property : Type :=
  | ArrayValue (options : list RoleOption)
  | Inherited (name : string)
  | Undefined.

Definition get_jobRoles (skill : string) : property :=
  match jobRoles !! skill with
  | Some options => ArrayValue options
  | None =>
      if bool_decide (skill ∈ Object_prototype) then Inherited skill
      else Undefined
  end.

(** [value || []]: arrays, functions and objects are truthy, [undefined]
    is not. *)
Definition or_empty (value : property) : property :=
  match value with
  | Undefined => ArrayValue []
  | _ => value
  end.

(** [roleOptions.forEach(callback)] on whatever the read returned. *)
Definition roleOptions_forEach (roleOptions : property)
    (callback : RoleOption → nat → list JobMatch → outcome (list JobMatch))
    (matches : list JobMatch) : outcome (list JobMatch) :=
  match roleOptions with
  | ArrayValue options => forEach options callback matches
  | Inherited _ => Throws (TypeError "roleOptions.forEach is not a function")
  | Undefined =>
      Throws (TypeError "Cannot read properties of undefined (reading 'forEach')")
  end.

(** ** generateJobMatches *)

(** The template literal of the [recommendation] field. *)
Definition recommendation_text (skill : string) (proficiency : Z) : string :=
  "Strong match based on your " +:+ skill +:+ " skills (" +:+ pretty proficiency
  +:+ "%). Your recent projects and assessments demonstrate the required expertise for this role.".

(** The object pushed for one qualifying option.  The thresholds of the
    table are positive, so the quotient is never taken by 0; [pretty] is
    the decimal numeral the template literal prints for an integer. *)
Definition jobMatch (skill : string) (proficiency : Z) (option : RoleOption)
  : JobMatch :=
  let matchScore :=
    Math_round (inject_Z proficiency / inject_Z (minScore option) * 100)%Q in
  {| role := option_role option;
     company := option_company option;
     matchScore := Math_min matchScore 98;
     recommendation := recommendation_text skill proficiency |}.

(** The body of the inner loop.  [proficiency] is [proficiencyLevels[index]],
    [None] when the index is past the end of the array: [undefined >= n]
    is false for every number [n]. *)
Definition visitOption (skill : string) (proficiency : option Z)
    (option : RoleOption) (_ : nat) (matches : list JobMatch)
  : outcome (list JobMatch) :=
  match proficiency with
  | Some p =>
      if bool_decide (p >= minScore option)%Z
      then Returns (push matches (jobMatch skill p option))
      else Returns matches
  | None => Returns matches
  end.

(** The body of the outer loop. *)
Definition visitSkill (proficiencyLevels : list Z)
    (skill : string) (index : nat) (matches : list JobMatch)
  : outcome (list JobMatch) :=
  let proficiency := proficiencyLevels !! index in
  let roleOptions := or_empty (get_jobRoles skill) in
  roleOptions_forEach roleOptions (visitOption skill proficiency) matches.

(** The array [matches] when the two loops are over. *)
Definition collectMatches (skills : list string) (proficiencyLevels : list Z)
  : outcome (list JobMatch) :=
  forEach skills (visitSkill proficiencyLevels) [].

Definition byMatchScore (a b : JobMatch) : Z := matchScore b - matchScore a.

Definition generateJobMatches (skills : list string) (proficiencyLevels : list Z)
  : outcome (list JobMatch) :=
  matches ← collectMatches skills proficiencyLevels;
  Returns (slice 0 2 (sort byMatchScore matches)).

(** ** The attendance figure of the dashboard *)

(** The two lengths are array lengths, integers below [2^32] and doubles as
    they are; the quotient and the product are rounded. *)
Definition attendancePercentage (studentAttendance : list AttendanceRecord) : Q :=
  if bool_decide (0 < length studentAttendance)%nat
  then Number_mul
         (Number_div
            (inject_Z (Z.of_nat (length (filter (λ record, present record)
                                                studentAttendance))))
            (inject_Z (Z.of_nat (length studentAttendance))))
         100
  else 0%Q.

(** [updatedMetrics.attendance] *)
Definition computeAttendancePercentage (studentAttendance : list AttendanceRecord)
  : Z :=
  Math_round (attendancePercentage studentAttendance).

(** ** Specification-side definitions

    They are not part of the program: they name what the loops are proved
    to compute. *)

(** The options listed for a skill in the table, none for other names. *)
Definition roleOptionsOf (skill : string) : list RoleOption :=
  default [] (jobRoles !! skill).

(** The matches one skill adds, in table order. *)
Definition qualifying (skill : string) (proficiency : option Z)
    (options : list RoleOption) : list JobMatch :=
  match proficiency with
  | Some p => jobMatch skill p <$> filter (λ option, minScore option ≤ p)%Z options
  | None => []
  end.

(** The matches of the skills from position [index] on, in input order. *)
Fixpoint matchesFrom (proficiencyLevels : list Z) (skills : list string)
    (index : nat) : list JobMatch :=
  match skills with
  | [] => []
  | skill :: rest =>
      qualifying skill (proficiencyLevels !! index) (roleOptionsOf skill)
      ++ matchesFrom proficiencyLevels rest (S index)
  end.

(** [m] is the match of the skill at position [i] and of one of its options,
    and the proficiency at that position reaches the option's threshold. *)
Definition originates (skills : list string) (proficiencyLevels : list Z)
    (m : JobMatch) : Prop :=
  ∃ (i : nat) (skill : string) (p : Z) (option : RoleOption),
    skills !! i = Some skill
    ∧ proficiencyLevels !! i = Some p
    ∧ option ∈ roleOptionsOf skill
    ∧ (minScore option ≤ p)%Z
    ∧ m = jobMatch skill p option.

(** [r] is the integer nearest to [x], the upper one of two. *)
Definition rounds_half_up (x : Q) (r : Z) : Prop :=
  (inject_Z r - (1 # 2) <= x)%Q ∧ (x < inject_Z r + (1 # 2))%Q.


(** The percentage the code computes from the two counts. *)
Definition percentageOf (presentCount total : Z) : Q :=
  Number_mul (Number_div (inject_Z presentCount) (inject_Z total)) 100.

(** The order the sort establishes. *)
Definition score_ge (a b : JobMatch) : Prop := (matchScore b ≤ matchScore a)%Z.

(** * The rest of the components

    What follows embeds the code around [generateJobMatches]: the levels
    the [Dashboard] component draws and the matches it computes from them,
    the navigation of [AppContent] (src/src/App.tsx) and the two handlers of
    [AdminDashboard] (src/unnamed/part_000).  The JSX a component returns
    is not embedded; a component is represented by the values it hands to
    its elements. *)

(** ** The world a render reads *)

(** [Math.random] reads the world: [random] lists what the successive
    calls return, and the counter tells how many calls were made.  A number
    [Math.random] returns is a double, at least 0 and below 1. *)
Record World : Type := mkWorld {
  random : nat → Q;
  randomCalls : nat
}.

Definition Math_random (w : World) : Q * World :=
  (random w (randomCalls w), mkWorld (random w) (S (randomCalls w))).

(** [Math.floor] is exact on a double. *)
Definition Math_floor (x : Q) : Z := Qfloor x.

(** [array.map(callback)] for a callback that reads the world. *)
Fixpoint map_world {A B : Type} (callback : A → World → B * World)
    (array : list A) (w : World) : list B * World :=
  match array with
  | [] => ([], w)
  | x :: rest =>
      let '(y, w1) := callback x w in
      let '(ys, w2) := map_world callback rest w1 in
      (y :: ys, w2)
  end.

(** ** Dashboard (src/unnamed/part_001, lines 137 to 140 and 170) *)

(** [skillProficiencyLevels]: one draw for each skill; the product with 30
    is rounded before the floor. *)
Definition skillProficiencyLevels (skills : list string) (w : World)
  : list Z * World :=
  map_world (λ _ w,
               let '(r, w') := Math_random w in
               (Math_floor (Number_mul r 30) + 70, w'))
            skills w.

(** [updatedJobMatches], the matches the component shows: the drawn levels
    go to [generateJobMatches] with the skills they were drawn for. *)
Definition updatedJobMatches (skills : list string) (w : World)
  : outcome (list JobMatch) :=
  generateJobMatches skills (skillProficiencyLevels skills w).1.

(** The signed-in user, as far as [AppContent] looks at it. *)
Record User : Type := mkUser {
  user_id : string
}.

(** ** AppContent (src/src/App.tsx) *)

(** A navigation item; [item_icon] names the icon component. *)
Record NavigationItem : Type := mkNavigationItem {
  item_id : string;
  item_icon : string;
  item_text : string
}.

(** [userRole] is [None] for [null]. *)
Definition getNavigationItems (userRole : option string) : list NavigationItem :=
  if bool_decide (userRole = Some "student") then
    [ mkNavigationItem "editor" "Code" "Code Editor";
      mkNavigationItem "courses" "BookOpen" "Courses";
      mkNavigationItem "assessments" "ClipboardList" "Assessments";
      mkNavigationItem "dashboard" "BarChart" "Dashboard" ]
  else if bool_decide (userRole = Some "faculty") then
    [ mkNavigationItem "courses" "BookOpen" "Manage Courses";
      mkNavigationItem "assessments" "ClipboardList" "Assessments";
      mkNavigationItem "attendance" "Users" "Attendance" ]
  else if bool_decide (userRole = Some "admin") then
    [ mkNavigationItem "dashboard" "BarChart" "Dashboard" ]
  else [].

(** The components [main] can hold. *)
Inductive Panel : Type :=
  | CodeEditorPanel (language : string)
  | CourseListPanel
  | AssessmentListPanel (isTeacher : bool)
  | DashboardPanel
  | AdminDashboardPanel
  | AttendanceManagerPanel.

(** [cond && <X />] contributes [X] when [cond] holds and nothing
    otherwise. *)
Definition when {A : Type} (cond : bool) (x : A) : list A :=
  if cond then [x] else [].

(** The children of [main], in the order of the source. *)
Definition mainPanels (activeTab : string) (userRole : option string)
    (selectedLanguage : string) : list Panel :=
  when (bool_decide (activeTab = "editor")
        && bool_decide (userRole = Some "student"))
       (CodeEditorPanel selectedLanguage)
  ++ when (bool_decide (activeTab = "courses")) CourseListPanel
  ++ when (bool_decide (activeTab = "assessments"))
          (AssessmentListPanel (bool_decide (userRole = Some "faculty")))
  ++ when (bool_decide (activeTab = "dashboard")
           && bool_decide (userRole = Some "student"))
          DashboardPanel
  ++ when (bool_decide (activeTab = "dashboard")
           && bool_decide (userRole = Some "admin"))
          AdminDashboardPanel
  ++ when (bool_decide (activeTab = "attendance")
           && bool_decide (userRole = Some "faculty"))
          AttendanceManagerPanel.

(** What [AppContent] returns. *)
Inductive Screen : Type :=
  | LoadingScreen
  | AuthScreen
  | MainScreen (navigation : list NavigationItem) (languageSelect : bool)
               (panels : list Panel).

Definition AppContent (loading : bool) (user : option User)
    (userRole : option string) (activeTab selectedLanguage : string) : Screen :=
  if loading then LoadingScreen
  else match user with
       | None => AuthScreen
       | Some _ =>
           MainScreen (getNavigationItems userRole)
                      (bool_decide (activeTab = "editor")
                       && bool_decide (userRole = Some "student"))
                      (mainPanels activeTab userRole selectedLanguage)
       end.

(** The state [useState] gives [activeTab] at first. *)
Definition initialActiveTab : string := "dashboard".

(** ** AdminDashboard (src/unnamed/part_000) *)

(** ['student' | 'faculty'] *)
Inductive AccountRole : Type := StudentAccount | FacultyAccount.

Record NewUser : Type := mkNewUser {
  email : string;
  password : string;
  newUser_role : AccountRole
}.

(** What a [catch] can receive: an [Error] with its message, or a value
    that is no [Error]. *)
Inductive Thrown : Type :=
  | ErrorObject (message : string)
  | OtherValue.

(** The state of the component and what it acts on: the two pieces of
    state, the messages given to [alert], in order, and the user store of
    the authentication context. *)
Record AdminState (Store : Type) : Type := mkAdminState {
  showAddModal : bool;
  newUser : NewUser;
  alerts : list string;
  authorizedUsers : Store
}.
Arguments mkAdminState {Store} _ _ _ _.
Arguments showAddModal {Store} _.
Arguments newUser {Store} _.
Arguments alerts {Store} _.
Arguments authorizedUsers {Store} _.

(** [error instanceof Error ? error.message : fallback] *)
Definition errorMessage (error : Thrown) (fallback : string) : string :=
  match error with
  | ErrorObject message => message
  | OtherValue => fallback
  end.

(** [handleAddUser].  [updateUsers] belongs to the authentication context:
    it is given the store and returns it with [None], or with what it
    threw. *)
Definition handleAddUser {Store : Type}
    (updateUsers : string → string → AccountRole → Store → Store * option Thrown)
    (st : AdminState Store) : AdminState Store :=
  if bool_decide (email (newUser st) = "")
     || bool_decide (password (newUser st) = "")
  then mkAdminState (showAddModal st) (newUser st)
                    (alerts st ++ ["Please fill in all fields"])
                    (authorizedUsers st)
  else
    match updateUsers (email (newUser st)) (password (newUser st))
                      (newUser_role (newUser st)) (authorizedUsers st) with
    | (store, None) =>
        mkAdminState false (mkNewUser "" "" StudentAccount) (alerts st) store
    | (store, Some error) =>
        mkAdminState (showAddModal st) (newUser st)
                     (alerts st ++ [errorMessage error "Failed to add user"])
                     store
    end.

(** [handleRemoveUser]; [confirmed] is the answer [window.confirm] got. *)
Definition handleRemoveUser {Store : Type}
    (removeUser : string → AccountRole → Store → Store * option Thrown)
    (confirmed : bool) (id : string) (role : AccountRole)
    (st : AdminState Store) : AdminState Store :=
  if confirmed then
    match removeUser id role (authorizedUsers st) with
    | (store, None) =>
        mkAdminState (showAddModal st) (newUser st) (alerts st) store
    | (store, Some error) =>
        mkAdminState (showAddModal st) (newUser st)
                     (alerts st ++ [errorMessage error "Failed to remove user"])
                     store
    end
  else st.

(** What the user can do on the page. *)
Inductive AdminEvent : Type :=
  | ClickAdd (role : AccountRole)
  | TypeEmail (value : string)
  | TypePassword (value : string)
  | CloseModal
  | ClickSubmit
  | ClickRemove (id : string) (role : AccountRole) (confirmed : bool).

(** The handlers of the elements. *)
Definition adminStep {Store : Type}
    (updateUsers : string → string → AccountRole → Store → Store * option Thrown)
    (removeUser : string → AccountRole → Store → Store * option Thrown)
    (event : AdminEvent) (st : AdminState Store) : AdminState Store :=
  match event with
  | ClickAdd role =>
      mkAdminState true (mkNewUser "" "" role) (alerts st) (authorizedUsers st)
  | TypeEmail value =>
      mkAdminState (showAddModal st)
                   (mkNewUser value (password (newUser st))
                              (newUser_role (newUser st)))
                   (alerts st) (authorizedUsers st)
  | TypePassword value =>
      mkAdminState (showAddModal st)
                   (mkNewUser (email (newUser st)) value
                              (newUser_role (newUser st)))
                   (alerts st) (authorizedUsers st)
  | CloseModal =>
      mkAdminState false (newUser st) (alerts st) (authorizedUsers st)
  | ClickSubmit => handleAddUser updateUsers st
  | ClickRemove id role confirmed =>
      handleRemoveUser removeUser confirmed id role st
  end.

(** The page after a sequence of events. *)
Definition adminRun {Store : Type}
    (updateUsers : string → string → AccountRole → Store → Store * option Thrown)
    (removeUser : string → AccountRole → Store → Store * option Thrown)
    (events : list AdminEvent) (st : AdminState Store) : AdminState Store :=
  foldl (λ st event, adminStep updateUsers removeUser event st) st events.

(** Specification side: a store that keeps, beside the users, the
    arguments of every call of [updateUsers]. *)
Definition Submission : Type := string * string * AccountRole.

Definition recording {Store : Type}
    (updateUsers : string → string → AccountRole → Store → Store * option Thrown)
    (email password : string) (role : AccountRole)
    (store : Store * list Submission)
  : (Store * list Submission) * option Thrown :=
  let '(users, thrown) := updateUsers email password role store.1 in
  ((users, store.2 ++ [(email, password, role)]), thrown).

Definition notRecording {Store : Type}
    (removeUser : string → AccountRole → Store → Store * option Thrown)
    (id : string) (role : AccountRole) (store : Store * list Submission)
  : (Store * list Submission) * option Thrown :=
  let '(users, thrown) := removeUser id role store.1 in
  ((users, store.2), thrown).

(** The state without the record of the calls. *)
Definition forget {Store : Type} (st : AdminState (Store * list Submission))
  : AdminState Store :=
  mkAdminState (showAddModal st) (newUser st) (alerts st) (authorizedUsers st).1.

(** * Proofs *)

(** ** Rounding *)

Lemma Math_round_half_up (x : Q) : rounds_half_up x (Math_round x).
Proof.
  unfold rounds_half_up, Math_round.
  pose proof (Qfloor_le (x + (1 # 2))) as Hle.
  pose proof (Qlt_floor (x + (1 # 2))) as Hlt.
  rewrite inject_Z_plus in Hlt.
  split.
  - apply Qplus_le_l with (z := (1 # 2)%Q). ring_simplify. exact Hle.
  - apply Qplus_lt_l with (z := (1 # 2)%Q).
    eapply Qlt_le_trans; [exact Hlt|]. ring_simplify. apply Qle_refl.
Qed.

Lemma rounds_half_up_unique (x : Q) (r1 r2 : Z) :
  rounds_half_up x r1 → rounds_half_up x r2 → r1 = r2.
Proof.
  intros [Hl1 Hu1] [Hl2 Hu2].
  assert (inject_Z r1 < inject_Z r2 + 1)%Q as H12.
  { apply Qplus_lt_l with (z := (- (1 # 2))%Q).
    eapply Qle_lt_trans; [exact Hl1|].
    eapply Qlt_le_trans; [exact Hu2|]. ring_simplify. apply Qle_refl. }
  assert (inject_Z r2 < inject_Z r1 + 1)%Q as H21.
  { apply Qplus_lt_l with (z := (- (1 # 2))%Q).
    eapply Qle_lt_trans; [exact Hl2|].
    eapply Qlt_le_trans; [exact Hu1|]. ring_simplify. apply Qle_refl. }
  change 1%Q with (inject_Z 1) in H12, H21.
  rewrite <- inject_Z_plus, <- Zlt_Qlt in H12, H21. lia.
Qed.


(** Rounding a quotient of integers, in integer arithmetic. *)
Lemma Math_round_quotient (n d : Z) :
  0 < d →
  Math_round (inject_Z n / inject_Z d * 100)%Q = (200 * n + d) `div` (2 * d).
Proof.
  intros Hd. unfold Math_round. rewrite Zdiv_Qdiv.
  apply Qfloor_comp.
  rewrite !inject_Z_plus, !inject_Z_mult.
  assert (¬ inject_Z d == 0)%Q as Hne.
  { change 0%Q with (inject_Z 0). rewrite inject_Z_injective. lia. }
  change (inject_Z 200) with 200%Q. change (inject_Z 2) with 2%Q.
  field. exact Hne.
Qed.

(** ** Double precision *)

Lemma pow2_pos (t : Z) : (0 < pow2 t)%Q.
Proof. apply Qpower_0_lt. reflexivity. Qed.

Lemma pow2_plus (a b : Z) : pow2 (a + b) == pow2 a * pow2 b.
Proof. apply Qpower_plus. discriminate. Qed.

Lemma pow2_le (a b : Z) : a ≤ b → (pow2 a <= pow2 b)%Q.
Proof. intros H. apply Qpower_le_compat_l; [done|discriminate]. Qed.

Lemma pow2_succ (a : Z) : pow2 (a + 1) == 2 * pow2 a.
Proof. rewrite pow2_plus. change (pow2 1) with 2%Q. ring. Qed.

Lemma pow2_Z (t : Z) : 0 ≤ t → pow2 t == inject_Z (2 ^ t).
Proof. intros H. symmetry. apply (Zpower_Qpower 2 t H). Qed.

Lemma pow2_log2 (a : Z) :
  0 < a → (pow2 (Z.log2 a) <= inject_Z a)%Q ∧ (inject_Z a < 2 * pow2 (Z.log2 a))%Q.
Proof.
  intros Ha. destruct (Z.log2_spec a Ha) as [Hl Hu].
  pose proof (Z.log2_nonneg a) as Hnn.
  rewrite <- pow2_succ. rewrite !pow2_Z by lia.
  rewrite <- Zle_Qle, <- Zlt_Qlt. split; [done|].
  by rewrite <- Z.add_1_r in Hu.
Qed.

Lemma binade_spec (x : Q) :
  (0 < x)%Q → (pow2 (binade x) <= x)%Q ∧ (x < pow2 (binade x + 1))%Q.
Proof.
  intros Hx. destruct x as [a b]. 
  assert (0 < a) as Ha.
  { unfold Qlt in Hx. simpl in Hx. lia. }
  unfold binade. cbn [Qnum Qden].
  set (la := Z.log2 a). set (lb := Z.log2 (Z.pos b)).
  destruct (pow2_log2 a Ha) as [Ha1 Ha2]. fold la in Ha1, Ha2.
  destruct (pow2_log2 (Z.pos b) eq_refl) as [Hb1 Hb2]. fold lb in Hb1, Hb2.
  pose proof (pow2_pos la) as HP. pose proof (pow2_pos lb) as HR.
  assert (pow2 (la - lb) * pow2 lb == pow2 la) as Hsplit.
  { rewrite <- pow2_plus. by replace (la - lb + lb) with la by lia. }
  assert (a # b == inject_Z a / inject_Z (Z.pos b)) as Hx' by apply Qmake_Qdiv.
  assert (0 < inject_Z (Z.pos b))%Q as HB by (by rewrite <- (Zlt_Qlt 0)).
  set (A := inject_Z a) in *. set (B := inject_Z (Z.pos b)) in *.
  set (E := pow2 (la - lb)) in *.
  pose proof (pow2_pos (la - lb)) as HE. fold E in HE.
  assert (pow2 (la - lb - 1 + 1) == 2 * pow2 (la - lb - 1)) as Hhalf
    by apply pow2_succ.
  replace (la - lb - 1 + 1) with (la - lb) in Hhalf by lia. fold E in Hhalf.
  assert (pow2 (la - lb + 1) == 2 * E) as Hdouble by apply pow2_succ.
  set (H := pow2 (la - lb - 1)) in *.
  pose proof (pow2_pos (la - lb - 1)) as HH. fold H in HH.
  assert (H * (2 * pow2 lb) == pow2 la) as Hsplit'.
  { rewrite <- Hsplit, Hhalf. ring. }
  assert (H < A / B)%Q as Hlow.
  { apply Qlt_shift_div_l; [done|].
    apply Qlt_le_trans with (H * (2 * pow2 lb))%Q; [|lra].
    by apply Qmult_lt_l. }
  assert (A / B < 2 * E)%Q as Hhigh.
  { apply Qlt_shift_div_r; [done|].
    apply Qlt_le_trans with (2 * E * pow2 lb)%Q; [lra|].
    apply Qmult_le_l; [lra|done]. }
  destruct (Qle_bool E (a # b)) eqn:Hcmp.
  - apply Qle_bool_iff in Hcmp. split; [done|].
    rewrite Hdouble, Hx'. done.
  - assert (a # b < E)%Q as Hlt.
    { apply Qnot_le_lt. intros Hle. apply Qle_bool_iff in Hle. congruence. }
    replace (la - lb - 1 + 1) with (la - lb) by lia. split; [|done].
    rewrite Hx'. by apply Qlt_le_weak.
Qed.

Lemma binade_unique (x : Q) (e : Z) :
  (pow2 e <= x)%Q → (x < pow2 (e + 1))%Q → binade x = e.
Proof.
  intros Hl Hu.
  assert (0 < x)%Q as Hx by (pose proof (pow2_pos e); lra).
  destruct (binade_spec x Hx) as [Hl' Hu'].
  destruct (Z.lt_trichotomy (binade x) e) as [Hlt|[Heq|Hgt]]; [|done|].
  - pose proof (pow2_le (binade x + 1) e ltac:(lia)). lra.
  - pose proof (pow2_le (e + 1) (binade x) ltac:(lia)). lra.
Qed.

Lemma binade_comp (x y : Q) : (0 < x)%Q → x == y → binade x = binade y.
Proof.
  intros Hx Heq. symmetry. destruct (binade_spec x Hx) as [Hl Hu].
  apply binade_unique; by rewrite <- Heq.
Qed.

Lemma binade_monotone (x y : Q) :
  (0 < x)%Q → (x <= y)%Q → binade x ≤ binade y.
Proof.
  intros Hx Hxy. assert (0 < y)%Q as Hy by lra.
  destruct (binade_spec x Hx) as [Hl Hu].
  destruct (binade_spec y Hy) as [Hl' Hu'].
  destruct (Z_le_gt_dec (binade x) (binade y)) as [|Hgt]; [done|].
  pose proof (pow2_le (binade y + 1) (binade x) ltac:(lia)). lra.
Qed.

(** Rounding to an integer *)
Lemma roundNearestEven_cases (y : Q) :
  roundNearestEven y = Qfloor y ∨ roundNearestEven y = Qfloor y + 1.
Proof.
  unfold roundNearestEven.
  destruct (y - inject_Z (Qfloor y) ?= 1 # 2)%Q; auto.
  destruct (Z.even (Qfloor y)); auto.
Qed.


Lemma roundNearestEven_comp (y y' : Q) :
  y == y' → roundNearestEven y = roundNearestEven y'.
Proof.
  intros Heq. unfold roundNearestEven.
  rewrite (Qfloor_comp _ _ Heq).
  assert (y - inject_Z (Qfloor y') == y' - inject_Z (Qfloor y')) as Hd
    by (by rewrite Heq).
  by rewrite (Qcompare_comp _ _ Hd (1 # 2) (1 # 2) (Qeq_refl _)).
Qed.

Lemma roundNearestEven_Z (c : Z) : roundNearestEven (inject_Z c) = c.
Proof.
  unfold roundNearestEven. rewrite Qfloor_Z.
  destruct (Qcompare_spec (inject_Z c - inject_Z c) (1 # 2)) as [He|Hlt|Hgt];
    [lra|done|lra].
Qed.

Lemma roundNearestEven_monotone (y1 y2 : Q) :
  (y1 <= y2)%Q → roundNearestEven y1 ≤ roundNearestEven y2.
Proof.
  intros Hle. pose proof (Qfloor_resp_le _ _ Hle) as Hfloor.
  destruct (Z.eq_dec (Qfloor y1) (Qfloor y2)) as [Heq|Hne].
  - unfold roundNearestEven. rewrite Heq.
    destruct (Qcompare_spec (y1 - inject_Z (Qfloor y2)) (1 # 2));
      destruct (Qcompare_spec (y2 - inject_Z (Qfloor y2)) (1 # 2));
      destruct (Z.even (Qfloor y2)); lia || lra.
  - destruct (roundNearestEven_cases y1) as [->| ->];
      destruct (roundNearestEven_cases y2) as [->| ->]; lia.
Qed.

Lemma roundNearestEven_le (y : Q) (c : Z) :
  (y <= inject_Z c)%Q → roundNearestEven y ≤ c.
Proof.
  intros H. rewrite <- (roundNearestEven_Z c). by apply roundNearestEven_monotone.
Qed.

Lemma roundNearestEven_ge (y : Q) (c : Z) :
  (inject_Z c <= y)%Q → c ≤ roundNearestEven y.
Proof.
  intros H. rewrite <- (roundNearestEven_Z c). by apply roundNearestEven_monotone.
Qed.

(** Scaling by a power of two *)
Lemma scale_mult (x : Q) (t : Z) : x / pow2 t * pow2 t == x.
Proof. pose proof (pow2_pos t). field. lra. Qed.

Lemma scale_le (x y : Q) (t : Z) :
  (x <= y)%Q → (x / pow2 t <= y / pow2 t)%Q.
Proof.
  intros H. apply Qle_shift_div_l; [apply pow2_pos|]. by rewrite scale_mult.
Qed.

Lemma scale_pow2 (e t : Z) : pow2 e / pow2 t == pow2 (e - t).
Proof.
  pose proof (pow2_pos t).
  assert (pow2 e == pow2 (e - t) * pow2 t) as ->.
  { rewrite <- pow2_plus. by replace (e - t + t) with e by lia. }
  field. lra.
Qed.

(** The rounding of a positive number *)
Lemma fl_pos (x : Q) :
  (0 < x)%Q →
  fl x == inject_Z (roundNearestEven (x / pow2 (ulpExponent x)))
          * pow2 (ulpExponent x).
Proof.
  intros Hx. destruct x as [[|a|a] b]; [done| |done].
  unfold fl. cbn [Qnum]. apply Qred_correct.
Qed.

Lemma fl_zero (x : Q) : x == 0 → fl x = 0%Q.
Proof.
  destruct x as [[|a|a] b]; [done|discriminate|discriminate].
Qed.

Lemma fl_comp (x y : Q) : (0 <= x)%Q → x == y → fl x = fl y.
Proof.
  intros Hx Heq. destruct (Qle_lt_or_eq _ _ Hx) as [Hpos|Hzero].
  - assert (0 < y)%Q as Hy by (by rewrite <- Heq).
    destruct x as [[|a|a] b]; [done| |done].
    destruct y as [[|c|c] d]; [done| |done].
    unfold fl. cbn [Qnum]. apply Qred_complete.
    assert (ulpExponent (Z.pos a # b) = ulpExponent (Z.pos c # d)) as ->.
    { unfold ulpExponent. by rewrite (binade_comp _ _ Hpos Heq). }
    rewrite (roundNearestEven_comp (_ / _) ((Z.pos c # d) / pow2 (ulpExponent (Z.pos c # d)))).
    + done.
    + by rewrite Heq.
  - rewrite (fl_zero x), (fl_zero y); [done| |]; by rewrite <- ?Heq, <- ?Hzero.
Qed.

Lemma fl_nonneg (x : Q) : (0 <= x)%Q → (0 <= fl x)%Q.
Proof.
  intros Hx. destruct (Qle_lt_or_eq _ _ Hx) as [Hpos|Hzero].
  - rewrite (fl_pos x Hpos). apply Qmult_le_0_compat.
    + change 0%Q with (inject_Z 0). rewrite <- Zle_Qle.
      apply roundNearestEven_ge. change (inject_Z 0) with 0%Q.
      apply Qle_shift_div_l; [apply pow2_pos|]. lra.
    + apply Qlt_le_weak, pow2_pos.
  - rewrite (fl_zero x); [done|by rewrite <- Hzero].
Qed.

(** A positive number and its rounding lie on the same side of every power
    of two above the binade. *)
Lemma fl_le_pow2 (x : Q) (e : Z) :
  (0 < x)%Q → (x <= pow2 e)%Q → ulpExponent x ≤ e → (fl x <= pow2 e)%Q.
Proof.
  intros Hx Hle Ht. rewrite (fl_pos x Hx).
  set (t := ulpExponent x) in *.
  assert (pow2 e == inject_Z (2 ^ (e - t)) * pow2 t) as ->.
  { rewrite <- pow2_Z by lia. rewrite <- pow2_plus.
    by replace (e - t + t) with e by lia. }
  apply Qmult_le_compat_r; [|apply Qlt_le_weak, pow2_pos].
  rewrite <- Zle_Qle. apply roundNearestEven_le.
  rewrite <- pow2_Z by lia. rewrite <- scale_pow2. by apply scale_le.
Qed.

Lemma fl_ge_pow2 (x : Q) (e : Z) :
  (0 < x)%Q → (pow2 e <= x)%Q → ulpExponent x ≤ e → (pow2 e <= fl x)%Q.
Proof.
  intros Hx Hle Ht. rewrite (fl_pos x Hx).
  set (t := ulpExponent x) in *.
  assert (pow2 e == inject_Z (2 ^ (e - t)) * pow2 t) as ->.
  { rewrite <- pow2_Z by lia. rewrite <- pow2_plus.
    by replace (e - t + t) with e by lia. }
  apply Qmult_le_compat_r; [|apply Qlt_le_weak, pow2_pos].
  rewrite <- Zle_Qle. apply roundNearestEven_ge.
  rewrite <- pow2_Z by lia. rewrite <- scale_pow2. by apply scale_le.
Qed.

Lemma fl_monotone (x y : Q) : (0 <= x)%Q → (x <= y)%Q → (fl x <= fl y)%Q.
Proof.
  intros Hx Hxy. destruct (Qle_lt_or_eq _ _ Hx) as [Hpos|Hzero].
  2: { rewrite (fl_zero x) by (by rewrite <- Hzero). apply fl_nonneg. lra. }
  assert (0 < y)%Q as Hy by lra.
  pose proof (binade_monotone x y Hpos Hxy) as Hbin.
  destruct (binade_spec x Hpos) as [Hxl Hxu].
  destruct (binade_spec y Hy) as [Hyl Hyu].
  destruct (Z.eq_dec (ulpExponent x) (ulpExponent y)) as [Heq|Hne].
  - rewrite (fl_pos x Hpos), (fl_pos y Hy), Heq.
    apply Qmult_le_compat_r; [|apply Qlt_le_weak, pow2_pos].
    rewrite <- Zle_Qle. by apply roundNearestEven_monotone, scale_le.
  - assert (ulpExponent x < ulpExponent y ∧ ulpExponent y = binade y - 52
            ∧ binade x + 1 ≤ binade y) as (Hlt & Hty & Hbin').
    { unfold ulpExponent in *. lia. }
    apply Qle_trans with (pow2 (binade y)).
    + apply fl_le_pow2; [done| |unfold ulpExponent in *; lia].
      apply Qle_trans with (pow2 (binade x + 1)); [lra|by apply pow2_le].
    + apply fl_ge_pow2; [done|done|lia].
Qed.


(** The doubles the attendance figure meets at its ends. *)
Lemma fl_1 : fl 1 = 1%Q.
Proof. vm_compute. reflexivity. Qed.

Lemma fl_100 : fl 100 = 100%Q.
Proof. vm_compute. reflexivity. Qed.

Lemma pow2_m53 : pow2 (-53) == 1 # 9007199254740992.
Proof. vm_compute. reflexivity. Qed.


(** [fl] against the floats of the kernel: the two roundings of the
    attendance percentage agree for every count out of every total up to
    120, and so does the product of a draw with 30. *)
Lemma fl_is_binary64_on_counts :
  forallb (λ '(k, n), same_as_binary64 k n) (counts_up_to 120) = true.
Proof. vm_compute. reflexivity. Qed.

Lemma fl_is_binary64_on_a_draw :
  let r := (float_of_Z 2552039788843281 / float_of_Z 4503599627370496)%float in
  Q_of_float r = Some (2552039788843281 # 4503599627370496)%Q
  ∧ Q_of_float (r * float_of_Z 30)%float
    = Some (Number_mul (2552039788843281 # 4503599627370496) 30).
Proof. split; vm_compute; reflexivity. Qed.

(** The largest double below 1 is [1 - 2^-53]. *)
Lemma double_below_one (r : Q) :
  representable r → (0 <= r)%Q → (r < 1)%Q → (r <= 1 - pow2 (-53))%Q.
Proof.
  intros Hdouble Hr0 Hr1.
  destruct (Qlt_le_dec (1 - pow2 (-53)) r) as [Hlt|Hle]; [exfalso|done].
  pose proof pow2_m53 as Hu.
  assert (0 < r)%Q as Hpos by lra.
  assert (binade r = -1) as Hbin.
  { apply binade_unique.
    - assert (pow2 (-1) == 1 # 2) as -> by (vm_compute; reflexivity). lra.
    - assert (pow2 (-1 + 1) == 1) as -> by (vm_compute; reflexivity). lra. }
  assert (ulpExponent r = -53) as Ht by (unfold ulpExponent; lia).
  unfold representable in Hdouble. rewrite (fl_pos r Hpos), Ht in Hdouble.
  set (m := roundNearestEven (r / pow2 (-53))) in *.
  rewrite Hu in Hdouble, Hlt.
  assert (inject_Z 9007199254740991 < inject_Z m)%Q as Hlow.
  { change (inject_Z 9007199254740991) with 9007199254740991%Q. lra. }
  assert (inject_Z m < inject_Z 9007199254740992)%Q as Hhigh.
  { change (inject_Z 9007199254740992) with 9007199254740992%Q. lra. }
  rewrite <- Zlt_Qlt in Hlow, Hhigh. lia.
Qed.

(** The product of a draw and 30 stays below 30 after rounding. *)
Lemma fl_below_30 : (fl (30 - 30 * pow2 (-53)) < 30)%Q.
Proof. vm_compute. reflexivity. Qed.


Lemma Math_round_monotone (x y : Q) :
  (x <= y)%Q → Math_round x ≤ Math_round y.
Proof. intros H. apply Qfloor_resp_le. lra. Qed.

(** The match score is the same in doubles: the quotient of a proficiency
    by a threshold it reaches is at least 1 after rounding, the product at
    least 100, and the cap applies as it does to the exact quotient. *)
Lemma matchScore_in_doubles (proficiency threshold : Z) :
  0 < threshold ≤ proficiency →
  Math_min
    (Math_round
       (Number_mul (Number_div (inject_Z proficiency) (inject_Z threshold)) 100))
    98
  = Math_min
      (Math_round (inject_Z proficiency / inject_Z threshold * 100)%Q) 98.
Proof.
  intros [Hpos Hle].
  assert (0 < inject_Z threshold)%Q as Hm
    by (change 0%Q with (inject_Z 0); rewrite <- Zlt_Qlt; lia).
  assert (inject_Z threshold <= inject_Z proficiency)%Q as Hq
    by (by rewrite <- Zle_Qle).
  assert (1 <= inject_Z proficiency / inject_Z threshold)%Q as Hone
    by (apply Qle_shift_div_l; lra).
  assert (1 <= Number_div (inject_Z proficiency) (inject_Z threshold))%Q as Hdiv.
  { unfold Number_div. rewrite <- fl_1 at 1. apply fl_monotone; [lra|done]. }
  assert (100 <= Number_mul
                   (Number_div (inject_Z proficiency) (inject_Z threshold)) 100)%Q
    as Hmul.
  { unfold Number_mul. rewrite <- fl_100 at 1. apply fl_monotone; lra. }
  assert (100 ≤ Math_round
                  (Number_mul
                     (Number_div (inject_Z proficiency) (inject_Z threshold)) 100))
    as Hdouble.
  { change 100 with (Math_round 100). by apply Math_round_monotone. }
  assert (100 ≤ Math_round (inject_Z proficiency / inject_Z threshold * 100)%Q)
    as Hexact.
  { rewrite Math_round_quotient by done. apply Z.div_le_lower_bound; lia. }
  unfold Math_min. lia.
Qed.

(** ** The role table *)

Lemma roleOptionsOf_cases (skill : string) :
  roleOptionsOf skill = []
  ∨ skill ∈ ["Python"; "JavaScript"; "Java"; "C++"].
Proof.
  unfold roleOptionsOf. destruct (jobRoles !! skill) as [options|] eqn:Hget.
  - right. apply elem_of_list_to_map_2 in Hget.
    set_unfold in Hget. set_unfold.
    destruct_or?; simplify_eq; auto.
  - left. reflexivity.
Qed.

Lemma minScore_range (skill : string) (option : RoleOption) :
  option ∈ roleOptionsOf skill → (80 ≤ minScore option ≤ 90)%Z.
Proof.
  destruct (roleOptionsOf_cases skill) as [Hnil|Hkey].
  - rewrite Hnil. set_solver.
  - set_unfold in Hkey.
    destruct Hkey as [->|[->|[->|[->|[]]]]]; vm_compute roleOptionsOf;
      set_unfold; intros Hin; destruct_or?; subst; simpl; try lia; done.
Qed.

(** A property name inherited from the prototype is not an own key. *)
Lemma prototype_not_own (skill : string) :
  skill ∈ Object_prototype → jobRoles !! skill = None.
Proof.
  unfold Object_prototype. set_unfold.
  intros H; destruct_or?; subst; try done; vm_compute; reflexivity.
Qed.

Lemma get_jobRoles_inherited (skill : string) :
  skill ∈ Object_prototype → or_empty (get_jobRoles skill) = Inherited skill.
Proof.
  intros Hin. unfold get_jobRoles.
  rewrite (prototype_not_own _ Hin), bool_decide_eq_true_2 by done. reflexivity.
Qed.

Lemma get_jobRoles_readable (skill : string) :
  skill ∉ Object_prototype →
  or_empty (get_jobRoles skill) = ArrayValue (roleOptionsOf skill).
Proof.
  intros Hnin. unfold get_jobRoles, roleOptionsOf.
  destruct (jobRoles !! skill) as [options|]; [reflexivity|].
  rewrite bool_decide_eq_false_2 by done. reflexivity.
Qed.

(** ** The loops *)

Lemma inner_loop (skill : string) (proficiency : option Z)
    (options : list RoleOption) (index : nat) (matches : list JobMatch) :
  forEach_from (visitOption skill proficiency) options index matches
  = Returns (matches ++ qualifying skill proficiency options).
Proof.
  revert index matches.
  induction options as [|option rest IH]; intros index matches; simpl.
  - destruct proficiency; simpl; by rewrite app_nil_r.
  - unfold visitOption at 1. destruct proficiency as [p|]; simpl.
    + case_bool_decide as Hge; simpl; rewrite IH; simpl.
      * rewrite filter_cons_True by lia. unfold push.
        by rewrite fmap_cons, <- app_assoc.
      * rewrite filter_cons_False by lia. done.
    + rewrite IH. done.
Qed.

Lemma visitSkill_readable (proficiencyLevels : list Z) (skill : string)
    (index : nat) (matches : list JobMatch) :
  skill ∉ Object_prototype →
  visitSkill proficiencyLevels skill index matches
  = Returns (matches ++ qualifying skill (proficiencyLevels !! index)
                                   (roleOptionsOf skill)).
Proof.
  intros Hnin. unfold visitSkill.
  rewrite get_jobRoles_readable by done. simpl. apply inner_loop.
Qed.

Lemma visitSkill_inherited (proficiencyLevels : list Z) (skill : string)
    (index : nat) (matches : list JobMatch) :
  skill ∈ Object_prototype →
  visitSkill proficiencyLevels skill index matches
  = Throws (TypeError "roleOptions.forEach is not a function").
Proof.
  intros Hin. unfold visitSkill. by rewrite get_jobRoles_inherited.
Qed.

Lemma outer_loop_returns (proficiencyLevels : list Z) (skills : list string)
    (index : nat) (matches : list JobMatch) :
  Forall (λ skill, skill ∉ Object_prototype) skills →
  forEach_from (visitSkill proficiencyLevels) skills index matches
  = Returns (matches ++ matchesFrom proficiencyLevels skills index).
Proof.
  intros Hall. revert index matches.
  induction Hall as [|skill rest Hskill _ IH]; intros index matches; simpl.
  - by rewrite app_nil_r.
  - rewrite visitSkill_readable by done. simpl.
    rewrite IH. by rewrite <- app_assoc.
Qed.

Lemma outer_loop_throws (proficiencyLevels : list Z) (skills : list string)
    (index : nat) (matches : list JobMatch) :
  Exists (λ skill, skill ∈ Object_prototype) skills →
  forEach_from (visitSkill proficiencyLevels) skills index matches
  = Throws (TypeError "roleOptions.forEach is not a function").
Proof.
  intros Hex. revert index matches.
  induction skills as [|skill rest IH]; intros index matches.
  - by apply Exists_nil in Hex.
  - simpl. destruct (decide (skill ∈ Object_prototype)) as [Hin|Hnin].
    + by rewrite visitSkill_inherited.
    + rewrite visitSkill_readable by done. simpl. apply IH.
      apply Exists_cons in Hex as [?|?]; done.
Qed.

Lemma collectMatches_returns (skills : list string) (proficiencyLevels : list Z) :
  Forall (λ skill, skill ∉ Object_prototype) skills →
  collectMatches skills proficiencyLevels
  = Returns (matchesFrom proficiencyLevels skills 0).
Proof. intros Hall. unfold collectMatches, forEach. by rewrite outer_loop_returns. Qed.

Lemma collectMatches_inv (skills : list string) (proficiencyLevels : list Z)
    (matches : list JobMatch) :
  collectMatches skills proficiencyLevels = Returns matches →
  Forall (λ skill, skill ∉ Object_prototype) skills
  ∧ matches = matchesFrom proficiencyLevels skills 0.
Proof.
  intros Hret.
  destruct (decide (Forall (λ skill, skill ∉ Object_prototype) skills))
    as [Hall|Hnall].
  - rewrite collectMatches_returns in Hret by done. by simplify_eq.
  - apply not_Forall_Exists in Hnall; [|apply _].
    unfold collectMatches, forEach in Hret.
    rewrite outer_loop_throws in Hret; [done|].
    eapply Exists_impl; [exact Hnall|]. intros skill Hskill. simpl in Hskill.
    by apply dec_stable.
Qed.

(** ** Where a collected match comes from *)

Lemma elem_of_qualifying (skill : string) (proficiency : option Z)
    (options : list RoleOption) (m : JobMatch) :
  m ∈ qualifying skill proficiency options
  ↔ ∃ p option, proficiency = Some p ∧ option ∈ options
      ∧ (minScore option ≤ p)%Z ∧ m = jobMatch skill p option.
Proof.
  unfold qualifying. destruct proficiency as [p|].
  - rewrite list_elem_of_fmap. setoid_rewrite list_elem_of_filter.
    split.
    + intros (option & -> & Hle & Hin). by exists p, option.
    + intros (p' & option & [= <-] & Hin & Hle & ->). by exists option.
  - split; [by intros ?%elem_of_nil|]. by intros (? & ? & [=] & _).
Qed.

Lemma elem_of_matchesFrom (proficiencyLevels : list Z) (skills : list string)
    (index : nat) (m : JobMatch) :
  m ∈ matchesFrom proficiencyLevels skills index
  ↔ ∃ (j : nat) (skill : string) (p : Z) (option : RoleOption),
      skills !! j = Some skill
      ∧ proficiencyLevels !! (index + j)%nat = Some p
      ∧ option ∈ roleOptionsOf skill
      ∧ (minScore option ≤ p)%Z
      ∧ m = jobMatch skill p option.
Proof.
  revert index. induction skills as [|skill rest IH]; intros index; simpl.
  - split; [by intros ?%elem_of_nil|]. by intros (j & ? & ? & ? & [=] & _).
  - rewrite elem_of_app, elem_of_qualifying, IH. split.
    + intros [(p & option & Hp & Hin & Hle & ->)
             |(j & skill' & p & option & Hj & Hp & Hin & Hle & ->)].
      * exists 0%nat, skill, p, option. by rewrite Nat.add_0_r.
      * exists (S j), skill', p, option.
        by rewrite <- Nat.add_succ_comm.
    + intros ([|j] & skill' & p & option & Hj & Hp & Hin & Hle & ->).
      * left. simpl in Hj. simplify_eq. rewrite Nat.add_0_r in Hp.
        by exists p, option.
      * right. exists j, skill', p, option.
        by rewrite Nat.add_succ_comm.
Qed.

Lemma elem_of_collected (skills : list string) (proficiencyLevels : list Z)
    (m : JobMatch) :
  m ∈ matchesFrom proficiencyLevels skills 0
  ↔ originates skills proficiencyLevels m.
Proof. apply elem_of_matchesFrom. Qed.

(** ** The score of a collected match *)

Lemma jobMatch_score (skill : string) (p : Z) (option : RoleOption) :
  (0 < minScore option)%Z →
  matchScore (jobMatch skill p option)
  = Z.min ((200 * p + minScore option) `div` (2 * minScore option)) 98.
Proof. intros Hpos. simpl. by rewrite Math_round_quotient. Qed.

Lemma jobMatch_capped (skill : string) (p : Z) (option : RoleOption) :
  (0 < minScore option ≤ p)%Z →
  matchScore (jobMatch skill p option) = 98.
Proof.
  intros [Hpos Hle]. rewrite jobMatch_score by done.
  apply Z.min_r.
  transitivity 100; [lia|].
  apply Z.div_le_lower_bound; lia.
Qed.

Lemma originates_score (skills : list string) (proficiencyLevels : list Z)
    (m : JobMatch) :
  originates skills proficiencyLevels m → matchScore m = 98.
Proof.
  intros (i & skill & p & option & _ & _ & Hin & Hle & ->).
  apply minScore_range in Hin. apply jobMatch_capped. lia.
Qed.

(** ** The sort *)

Section sort.
Context {A : Type} (compare : A → A → Z).

Lemma insert_sorted_Permutation (x : A) (l : list A) :
  insert_sorted compare x l ≡ₚ x :: l.
Proof.
  induction l as [|y l IH]; simpl; [done|].
  case_bool_decide; [done|]. rewrite IH. apply Permutation_swap.
Qed.

Lemma sort_Permutation (l : list A) : sort compare l ≡ₚ l.
Proof.
  induction l as [|x l IH]; simpl; [done|].
  by rewrite insert_sorted_Permutation, IH.
Qed.

Lemma sort_length (l : list A) : length (sort compare l) = length l.
Proof. by rewrite sort_Permutation. Qed.

(** Elements that all compare equal are left where they are. *)
Lemma sort_ties (l : list A) :
  (∀ x y, x ∈ l → y ∈ l → compare x y = 0) → sort compare l = l.
Proof.
  induction l as [|x l IH]; intros Hties; simpl; [done|].
  rewrite IH by (intros; apply Hties; set_solver).
  destruct l as [|y l]; simpl; [done|].
  rewrite bool_decide_eq_true_2; [done|].
  rewrite Hties by set_solver. done.
Qed.
End sort.

Lemma insert_sorted_HdRel (x y : JobMatch) (l : list JobMatch) :
  score_ge y x → HdRel score_ge y l →
  HdRel score_ge y (insert_sorted byMatchScore x l).
Proof.
  intros Hyx Hhd. destruct l as [|z l]; simpl; [by constructor|].
  case_bool_decide; constructor; [done|]. by inversion Hhd.
Qed.

Lemma insert_sorted_Sorted (x : JobMatch) (l : list JobMatch) :
  Sorted score_ge l → Sorted score_ge (insert_sorted byMatchScore x l).
Proof.
  induction 1 as [|y l Hsorted IH Hhd]; simpl.
  - by repeat constructor.
  - unfold byMatchScore at 1. case_bool_decide as Hcmp.
    + constructor; [by constructor|]. constructor. unfold score_ge. lia.
    + constructor; [done|]. apply insert_sorted_HdRel; [|done].
      unfold score_ge. lia.
Qed.

Lemma sort_Sorted (l : list JobMatch) : Sorted score_ge (sort byMatchScore l).
Proof.
  induction l as [|x l IH]; simpl; [constructor|].
  by apply insert_sorted_Sorted.
Qed.

(** Stability: the matches of any one score keep their relative order. *)
Lemma insert_sorted_stable (s : Z) (x : JobMatch) (l : list JobMatch) :
  Sorted score_ge l →
  filter (λ m, matchScore m = s) (insert_sorted byMatchScore x l)
  = filter (λ m, matchScore m = s) (x :: l).
Proof.
  induction 1 as [|y l Hsorted IH Hhd]; simpl; [done|].
  unfold byMatchScore at 1. case_bool_decide as Hcmp; [done|].
  destruct (decide (matchScore x = s)) as [Hx|Hx].
  - (* [x] moves behind [y], whose score is another one *)
    rewrite (filter_cons_True _ x) by done.
    rewrite (filter_cons_False _ y) by lia.
    rewrite (filter_cons_False _ y) by lia.
    rewrite IH. by rewrite filter_cons_True.
  - rewrite (filter_cons_False _ x) by done.
    destruct (decide (matchScore y = s)) as [Hy|Hy].
    + rewrite !(filter_cons_True _ y) by done.
      rewrite IH. by rewrite filter_cons_False.
    + rewrite !(filter_cons_False _ y) by done.
      rewrite IH. by rewrite filter_cons_False.
Qed.

Lemma sort_stable (s : Z) (l : list JobMatch) :
  filter (λ m, matchScore m = s) (sort byMatchScore l)
  = filter (λ m, matchScore m = s) l.
Proof.
  induction l as [|x l IH]; simpl; [done|].
  rewrite insert_sorted_stable by apply sort_Sorted.
  destruct (decide (matchScore x = s)).
  - rewrite !filter_cons_True by done. by rewrite IH.
  - rewrite !filter_cons_False by done. by rewrite IH.
Qed.

Lemma Sorted_take (n : nat) (l : list JobMatch) :
  Sorted score_ge l → Sorted score_ge (take n l).
Proof.
  intros Hsorted. revert n.
  induction Hsorted as [|x l Hsorted IH Hhd]; intros [|n]; simpl;
    try constructor; [apply IH|].
  destruct Hhd as [|y l]; destruct n; simpl; by constructor.
Qed.

(** ** What a call returns *)

Lemma generateJobMatches_returns (skills : list string)
    (proficiencyLevels : list Z) :
  Forall (λ skill, skill ∉ Object_prototype) skills →
  generateJobMatches skills proficiencyLevels
  = Returns (take 2 (sort byMatchScore (matchesFrom proficiencyLevels skills 0))).
Proof.
  intros Hall. unfold generateJobMatches.
  by rewrite collectMatches_returns.
Qed.

Lemma generateJobMatches_throws (skills : list string)
    (proficiencyLevels : list Z) :
  Exists (λ skill, skill ∈ Object_prototype) skills →
  generateJobMatches skills proficiencyLevels
  = Throws (TypeError "roleOptions.forEach is not a function").
Proof.
  intros Hex. unfold generateJobMatches, collectMatches, forEach.
  by rewrite outer_loop_throws.
Qed.

Lemma generateJobMatches_inv (skills : list string) (proficiencyLevels : list Z)
    (result : list JobMatch) :
  generateJobMatches skills proficiencyLevels = Returns result →
  Forall (λ skill, skill ∉ Object_prototype) skills
  ∧ collectMatches skills proficiencyLevels
    = Returns (matchesFrom proficiencyLevels skills 0)
  ∧ result = take 2 (sort byMatchScore (matchesFrom proficiencyLevels skills 0)).
Proof.
  unfold generateJobMatches. intros Hret.
  destruct (collectMatches skills proficiencyLevels) as [matches|e] eqn:Hcollect;
    [|done].
  apply collectMatches_inv in Hcollect as [Hall ->].
  simpl in Hret. unfold slice in Hret. simpl in Hret. by simplify_eq.
Qed.

Lemma collected_ties (skills : list string) (proficiencyLevels : list Z) :
  sort byMatchScore (matchesFrom proficiencyLevels skills 0)
  = matchesFrom proficiencyLevels skills 0.
Proof.
  apply sort_ties. intros a b Ha%elem_of_collected Hb%elem_of_collected.
  unfold byMatchScore.
  rewrite (originates_score _ _ _ Ha), (originates_score _ _ _ Hb). done.
Qed.

(** ** A match tells which option, skill and proficiency it was built from *)

Lemma string_length_app (s t : string) :
  String.length (s +:+ t) = (String.length s + String.length t)%nat.
Proof. induction s as [|a s IH]; simpl; [done|]. by rewrite IH. Qed.

Lemma string_app_inv_tail (s1 s2 t : string) :
  s1 +:+ t = s2 +:+ t → s1 = s2.
Proof.
  revert s2. induction s1 as [|a s1 IH]; intros [|b s2] Heq; simpl in Heq.
  - done.
  - apply (f_equal String.length) in Heq.
    rewrite !string_length_app in Heq. simpl in Heq. lia.
  - apply (f_equal String.length) in Heq.
    rewrite !string_length_app in Heq. simpl in Heq. lia.
  - injection Heq as -> Heq. f_equal. by apply IH.
Qed.

Lemma recommendation_text_inj (skill : string) (p p' : Z) :
  recommendation_text skill p = recommendation_text skill p' → p = p'.
Proof.
  unfold recommendation_text. intros Heq.
  do 3 apply String.app_inj in Heq.
  apply string_app_inv_tail in Heq.
  by apply (inj pretty) in Heq.
Qed.

(** No two entries of the table name the same company. *)
Lemma company_determines (skill skill' : string) (option option' : RoleOption) :
  option ∈ roleOptionsOf skill → option' ∈ roleOptionsOf skill' →
  option_company option = option_company option' →
  skill = skill' ∧ option = option'.
Proof.
  destruct (roleOptionsOf_cases skill) as [Hnil|Hkey];
    [rewrite Hnil; by intros ?%elem_of_nil|].
  destruct (roleOptionsOf_cases skill') as [Hnil|Hkey'];
    [rewrite Hnil; by intros _ ?%elem_of_nil|].
  set_unfold in Hkey. set_unfold in Hkey'.
  destruct Hkey as [->|[->|[->|[->|[]]]]];
    destruct Hkey' as [->|[->|[->|[->|[]]]]];
    vm_compute roleOptionsOf; set_unfold;
    intros Hin Hin'; destruct_or?; subst; simpl; done.
Qed.

Lemma jobMatch_inj (skill skill' : string) (p p' : Z)
    (option option' : RoleOption) :
  option ∈ roleOptionsOf skill → option' ∈ roleOptionsOf skill' →
  jobMatch skill p option = jobMatch skill' p' option' →
  skill = skill' ∧ p = p' ∧ option = option'.
Proof.
  intros Hin Hin' Heq.
  assert (option_company option = option_company option') as Hcompany
    by exact (f_equal company Heq).
  destruct (company_determines _ _ _ _ Hin Hin' Hcompany) as [<- <-].
  split_and!; [done| |done].
  apply (recommendation_text_inj skill). exact (f_equal recommendation Heq).
Qed.

(** ** Arrays of different lengths *)

Lemma matchesFrom_ext (levels levels' : list Z) (skills : list string)
    (index : nat) :
  (∀ j, (j < length skills)%nat → levels !! (index + j)%nat = levels' !! (index + j)%nat) →
  matchesFrom levels skills index = matchesFrom levels' skills index.
Proof.
  revert index. induction skills as [|skill rest IH]; intros index Hsame; simpl;
    [done|].
  f_equal.
  - specialize (Hsame 0%nat). rewrite Nat.add_0_r in Hsame.
    rewrite Hsame by (simpl; lia). done.
  - apply IH. intros j Hj. rewrite Nat.add_succ_comm. apply Hsame. simpl. lia.
Qed.

Lemma matchesFrom_past_end (levels : list Z) (skills : list string) (index : nat) :
  (length levels ≤ index)%nat → matchesFrom levels skills index = [].
Proof.
  revert index. induction skills as [|skill rest IH]; intros index Hle; simpl;
    [done|].
  rewrite lookup_ge_None_2 by done. simpl. apply IH. lia.
Qed.

Lemma matchesFrom_take_skills (levels : list Z) (skills : list string)
    (index : nat) :
  matchesFrom levels skills index
  = matchesFrom levels (take (length levels - index) skills) index.
Proof.
  revert index. induction skills as [|skill rest IH]; intros index; simpl.
  - by rewrite take_nil.
  - destruct (decide (index < length levels)%nat) as [Hlt|Hge].
    + replace (length levels - index)%nat with (S (length levels - S index))
        by lia.
      simpl. f_equal. apply IH.
    + replace (length levels - index)%nat with 0%nat by lia. simpl.
      rewrite lookup_ge_None_2 by lia. simpl.
      apply matchesFrom_past_end. lia.
Qed.

Lemma matchesFrom_truncate (levels : list Z) (skills : list string) :
  let n := (length skills `min` length levels)%nat in
  matchesFrom levels skills 0 = matchesFrom (take n levels) (take n skills) 0.
Proof.
  intros n. rewrite matchesFrom_take_skills, Nat.sub_0_r.
  assert (take (length levels) skills = take n skills) as ->.
  { subst n. destruct (decide (length skills ≤ length levels)%nat).
    - rewrite Nat.min_l by done. by rewrite !take_ge by lia.
    - by rewrite Nat.min_r by lia. }
  apply matchesFrom_ext. intros j Hj. simpl.
  rewrite length_take in Hj. rewrite lookup_take_lt by lia. done.
Qed.

(** * The claims *)

(** A call returns a list exactly when no skill is a property name
    inherited from [Object.prototype]; it throws a [TypeError] otherwise. *)
Lemma generateJobMatches_returns_iff (skills : list string)
    (proficiencyLevels : list Z) :
  (∃ result, generateJobMatches skills proficiencyLevels = Returns result)
  ↔ Forall (λ skill, skill ∉ Object_prototype) skills.
Proof.
  split.
  - intros [result Hret]. by apply generateJobMatches_inv in Hret as [? _].
  - intros Hall. eexists. by apply generateJobMatches_returns.
Qed.

(** Every returned match was collected from a qualifying option. *)
Lemma returned_originates (skills : list string) (proficiencyLevels : list Z)
    (result : list JobMatch) (m : JobMatch) :
  generateJobMatches skills proficiencyLevels = Returns result →
  m ∈ result → originates skills proficiencyLevels m.
Proof.
  intros (_ & _ & ->)%generateJobMatches_inv Hin.
  apply elem_of_collected.
  rewrite <- (sort_Permutation byMatchScore).
  by apply (subseteq_take 2).
Qed.

(** C1 (threshold gate).  Whatever the lengths of the two arrays, every
    match of the returned list is the match of a skill at some position [i]
    and of a table option of that skill whose [minScore] the proficiency at
    position [i] reaches; the match of an option whose [minScore] is above
    the proficiency is not in the returned list; and a proficiency equal to
    the threshold qualifies: its match is in the array [matches] the two
    loops collect, of which the returned list is a part. *)
Theorem threshold_gate (skills : list string) (proficiencyLevels : list Z)
    (result : list JobMatch) :
  generateJobMatches skills proficiencyLevels = Returns result →
  (∀ m, m ∈ result → originates skills proficiencyLevels m)
  ∧ (∀ i skill p option,
       skills !! i = Some skill → proficiencyLevels !! i = Some p →
       option ∈ roleOptionsOf skill → (p < minScore option)%Z →
       jobMatch skill p option ∉ result)
  ∧ (∃ matches,
       collectMatches skills proficiencyLevels = Returns matches
       ∧ result ⊆ matches
       ∧ ∀ i skill p option,
           skills !! i = Some skill → proficiencyLevels !! i = Some p →
           option ∈ roleOptionsOf skill → p = minScore option →
           jobMatch skill p option ∈ matches).
Proof.
  intros Hret.
  assert (∀ m, m ∈ result → originates skills proficiencyLevels m) as Hfrom
    by (intros m; by apply returned_originates).
  apply generateJobMatches_inv in Hret as (_ & Hcollect & ->).
  split_and!.
  - exact Hfrom.
  - intros i skill p option Hskill Hp Hin Hlt Hres.
    apply Hfrom in Hres
      as (i' & skill' & p' & option' & _ & _ & Hin' & Hle & Heq).
    apply jobMatch_inj in Heq as (_ & <- & <-); [lia|done..].
  - exists (matchesFrom proficiencyLevels skills 0). split_and!; [done| |].
    + intros m Hin. rewrite <- (sort_Permutation byMatchScore).
      by apply (subseteq_take 2).
    + intros i skill p option Hskill Hp Hin ->.
      apply elem_of_collected. exists i, skill, (minScore option), option.
      split_and!; done || lia.
Qed.

(** With [Python] at 80 the only option that passes is the one whose
    threshold is 80. *)
Lemma threshold_gate_witness :
  let skills := ["Python"] in
  let proficiencyLevels := [80] in
  let result :=
    [jobMatch "Python" 80 (mkRoleOption "Backend Developer" "TechStack Inc" 80)] in
  generateJobMatches skills proficiencyLevels = Returns result
  ∧ (∀ m, m ∈ result → originates skills proficiencyLevels m)
  ∧ (∀ i skill p option,
       skills !! i = Some skill → proficiencyLevels !! i = Some p →
       option ∈ roleOptionsOf skill → (p < minScore option)%Z →
       jobMatch skill p option ∉ result)
  ∧ (∃ matches,
       collectMatches skills proficiencyLevels = Returns matches
       ∧ result ⊆ matches
       ∧ ∀ i skill p option,
           skills !! i = Some skill → proficiencyLevels !! i = Some p →
           option ∈ roleOptionsOf skill → p = minScore option →
           jobMatch skill p option ∈ matches).
Proof.
  intros skills proficiencyLevels result.
  assert (generateJobMatches skills proficiencyLevels = Returns result) as Hret
    by (vm_compute; reflexivity).
  split; [exact Hret|].
  exact (threshold_gate skills proficiencyLevels result Hret).
Defined.

(** C2 (cap invariant).  Every [matchScore] of the returned list lies
    between 0 and 98, and it is the smaller of 98 and the integer nearest
    to [proficiency / minScore * 100], for the proficiency and the option
    the match was built from. *)
Theorem matchScore_cap (skills : list string) (proficiencyLevels : list Z)
    (result : list JobMatch) :
  generateJobMatches skills proficiencyLevels = Returns result →
  ∀ m, m ∈ result →
    (0 ≤ matchScore m ≤ 98)%Z
    ∧ ∃ i skill p option rawScore,
        skills !! i = Some skill
        ∧ proficiencyLevels !! i = Some p
        ∧ option ∈ roleOptionsOf skill
        ∧ m = jobMatch skill p option
        ∧ rounds_half_up (inject_Z p / inject_Z (minScore option) * 100)%Q rawScore
        ∧ matchScore m = Z.min rawScore 98.
Proof.
  intros Hret m Hin.
  pose proof (returned_originates _ _ _ _ Hret Hin) as Horigin.
  split.
  - rewrite (originates_score _ _ _ Horigin). lia.
  - destruct Horigin as (i & skill & p & option & Hskill & Hp & Hopt & _ & ->).
    exists i, skill, p, option,
      (Math_round (inject_Z p / inject_Z (minScore option) * 100)%Q).
    split_and!; try done. apply Math_round_half_up.
Qed.

Lemma matchScore_cap_witness :
  let skills := ["Java"; "C++"] in
  let proficiencyLevels := [83; 99] in
  let result :=
    [jobMatch "Java" 83 (mkRoleOption "Backend Developer" "Cloud Services Ltd" 82);
     jobMatch "C++" 99 (mkRoleOption "Systems Engineer" "Hardware Solutions" 88)] in
  generateJobMatches skills proficiencyLevels = Returns result
  ∧ ∀ m, m ∈ result →
      (0 ≤ matchScore m ≤ 98)%Z
      ∧ ∃ i skill p option rawScore,
          skills !! i = Some skill
          ∧ proficiencyLevels !! i = Some p
          ∧ option ∈ roleOptionsOf skill
          ∧ m = jobMatch skill p option
          ∧ rounds_half_up (inject_Z p / inject_Z (minScore option) * 100)%Q rawScore
          ∧ matchScore m = Z.min rawScore 98.
Proof.
  intros skills proficiencyLevels result.
  assert (generateJobMatches skills proficiencyLevels = Returns result) as Hret
    by (vm_compute; reflexivity).
  split; [exact Hret|].
  exact (matchScore_cap skills proficiencyLevels result Hret).
Defined.

(** The part of C3 the code keeps: a returned list has at most two
    matches, and it is empty when no option qualifies. *)
Lemma generateJobMatches_length (skills : list string)
    (proficiencyLevels : list Z) (result : list JobMatch) :
  generateJobMatches skills proficiencyLevels = Returns result →
  (length result ≤ 2)%nat.
Proof. intros (_ & _ & ->)%generateJobMatches_inv. rewrite length_take. lia. Qed.

Lemma generateJobMatches_ineligible (skills : list string)
    (proficiencyLevels : list Z) :
  Forall (λ skill, skill ∉ Object_prototype) skills →
  (∀ m, ¬ originates skills proficiencyLevels m) →
  generateJobMatches skills proficiencyLevels = Returns [].
Proof.
  intros Hall Hnone. rewrite generateJobMatches_returns by done.
  destruct (matchesFrom proficiencyLevels skills 0) as [|m matches] eqn:Heq;
    [done|].
  destruct (Hnone m). apply elem_of_collected. rewrite Heq. left.
Qed.

(** C3 (cardinality, no throw on ineligible input): the code departs from
    the claim.  [constructor] is no key of the table, so the input below has
    no eligible option, but [jobRoles["constructor"]] reads the function
    inherited from [Object.prototype]; it is truthy, [|| []] keeps it, and
    calling its missing [forEach] throws a [TypeError]. *)
Theorem ineligible_input_throws :
  roleOptionsOf "constructor" = []
  ∧ (∀ m, ¬ originates ["constructor"] [95] m)
  ∧ generateJobMatches ["constructor"] [95]
    = Throws (TypeError "roleOptions.forEach is not a function").
Proof.
  split_and!.
  - vm_compute. reflexivity.
  - intros m (i & skill & p & option & Hskill & _ & Hin & _).
    destruct i as [|i]; simpl in Hskill; [|done]. simplify_eq.
    vm_compute roleOptionsOf in Hin. by apply elem_of_nil in Hin.
  - vm_compute. reflexivity.
Qed.

(** C4 (monotonicity and stable ties).  The returned list is the first two
    elements of a list [sorted] that is a rearrangement of the collected
    array [matches] (skills in input order, the options of a skill in table
    order), has its scores in non-increasing order, and keeps the matches
    of every single score in the order they have in [matches]. *)
Theorem sorted_and_stable (skills : list string) (proficiencyLevels : list Z)
    (result : list JobMatch) :
  generateJobMatches skills proficiencyLevels = Returns result →
  Sorted score_ge result
  ∧ ∃ matches sorted,
      collectMatches skills proficiencyLevels = Returns matches
      ∧ matches = matchesFrom proficiencyLevels skills 0
      ∧ sorted ≡ₚ matches
      ∧ Sorted score_ge sorted
      ∧ (∀ s, filter (λ m, matchScore m = s) sorted
              = filter (λ m, matchScore m = s) matches)
      ∧ result = take 2 sorted.
Proof.
  intros (_ & Hcollect & ->)%generateJobMatches_inv.
  split; [apply Sorted_take, sort_Sorted|].
  exists (matchesFrom proficiencyLevels skills 0),
         (sort byMatchScore (matchesFrom proficiencyLevels skills 0)).
  split_and!; try done.
  - apply sort_Permutation.
  - apply sort_Sorted.
  - intros s. apply sort_stable.
Qed.

Lemma sorted_and_stable_witness :
  let skills := ["JavaScript"; "Rust"; "Python"] in
  let proficiencyLevels := [84; 100; 85] in
  let result :=
    [jobMatch "JavaScript" 84 (mkRoleOption "Frontend Developer" "WebTech Solutions" 80);
     jobMatch "JavaScript" 84 (mkRoleOption "React Developer" "Modern Apps Inc" 82)] in
  generateJobMatches skills proficiencyLevels = Returns result
  ∧ Sorted score_ge result
  ∧ ∃ matches sorted,
      collectMatches skills proficiencyLevels = Returns matches
      ∧ matches = matchesFrom proficiencyLevels skills 0
      ∧ sorted ≡ₚ matches
      ∧ Sorted score_ge sorted
      ∧ (∀ s, filter (λ m, matchScore m = s) sorted
              = filter (λ m, matchScore m = s) matches)
      ∧ result = take 2 sorted.
Proof.
  intros skills proficiencyLevels result.
  assert (generateJobMatches skills proficiencyLevels = Returns result) as Hret
    by (vm_compute; reflexivity).
  split; [exact Hret|].
  exact (sorted_and_stable skills proficiencyLevels result Hret).
Defined.

(** C5 (length mismatch), the claim as stated fails: with two skills and
    one proficiency level the call returns the two [Python] matches and
    raises nothing. *)
Lemma length_mismatch_counterexample :
  length ["Python"; "Java"] ≠ length [90]
  ∧ generateJobMatches ["Python"; "Java"] [90]
    = Returns
        [jobMatch "Python" 90 (mkRoleOption "Data Scientist" "DataCorp Analytics" 85);
         jobMatch "Python" 90
           (mkRoleOption "Machine Learning Engineer" "AI Solutions Ltd" 90)].
Proof. split; [simpl; lia|]. vm_compute. reflexivity. Qed.

(** C5 as amended.  When the two arrays differ in length the function
    checks nothing and raises no error for it: the call returns, and what
    it returns is the result for both arrays cut to the shorter length.  A
    skill without a proficiency level meets [undefined], which passes no
    threshold, and proficiency levels without a skill are never read.
    (Skills are taken not to name a member of [Object.prototype].) *)
Theorem length_mismatch_truncates (skills : list string)
    (proficiencyLevels : list Z) :
  length skills ≠ length proficiencyLevels →
  Forall (λ skill, skill ∉ Object_prototype) skills →
  let n := (length skills `min` length proficiencyLevels)%nat in
  ∃ result,
    generateJobMatches skills proficiencyLevels = Returns result
    ∧ generateJobMatches (take n skills) (take n proficiencyLevels)
      = Returns result.
Proof.
  intros _ Hall n. eexists. split.
  - by apply generateJobMatches_returns.
  - rewrite generateJobMatches_returns by by apply Forall_take.
    by rewrite (matchesFrom_truncate proficiencyLevels skills).
Qed.

Lemma length_mismatch_truncates_witness :
  let skills := ["Python"; "Java"] in
  let proficiencyLevels := [90] in
  length skills ≠ length proficiencyLevels
  ∧ Forall (λ skill, skill ∉ Object_prototype) skills
  ∧ ∃ result,
      generateJobMatches skills proficiencyLevels = Returns result
      ∧ generateJobMatches (take 1 skills) (take 1 proficiencyLevels)
        = Returns result.
Proof.
  intros skills proficiencyLevels.
  assert (length skills ≠ length proficiencyLevels) as Hlen by (simpl; lia).
  assert (Forall (λ skill, skill ∉ Object_prototype) skills) as Hall
    by (apply (bool_decide_unpack
                 (Forall (λ skill, skill ∉ Object_prototype) skills));
        vm_compute; exact I).
  split_and!; [exact Hlen|exact Hall|].
  exact (length_mismatch_truncates skills proficiencyLevels Hlen Hall).
Defined.

(** C6 (scenario A).  For [Python] at 90 the loops collect three matches,
    in table order, each with score 98; the option with threshold 90
    qualifies at equality.  The returned list is the first two of them:
    with all scores equal the sort moves nothing. *)
Theorem scenario_python_90 :
  let text := "Strong match based on your Python skills (90%). Your recent projects and assessments demonstrate the required expertise for this role." in
  let dataScientist := mkJobMatch "Data Scientist" "DataCorp Analytics" 98 text in
  let mlEngineer := mkJobMatch "Machine Learning Engineer" "AI Solutions Ltd" 98 text in
  let backend := mkJobMatch "Backend Developer" "TechStack Inc" 98 text in
  collectMatches ["Python"] [90] = Returns [dataScientist; mlEngineer; backend]
  ∧ generateJobMatches ["Python"] [90] = Returns [dataScientist; mlEngineer]
  ∧ mlEngineer
    = jobMatch "Python" 90
        (mkRoleOption "Machine Learning Engineer" "AI Solutions Ltd" 90)
  ∧ Math_round (inject_Z 90 / inject_Z 80 * 100)%Q = 113
  ∧ Math_round (inject_Z 90 / inject_Z 85 * 100)%Q = 106
  ∧ Math_round (inject_Z 90 / inject_Z 90 * 100)%Q = 100.
Proof. intros. subst text dataScientist mlEngineer backend. split_and!; vm_compute; reflexivity. Qed.

(** The instances of C7 the code meets. *)
Lemma generateJobMatches_empty : generateJobMatches [] [] = Returns [].
Proof. reflexivity. Qed.

Lemma generateJobMatches_Rust : generateJobMatches ["Rust"] [95] = Returns [].
Proof. vm_compute. reflexivity. Qed.

Lemma computeAttendancePercentage_empty : computeAttendancePercentage [] = 0.
Proof. reflexivity. Qed.

(** A skill that is neither a key of the table nor an inherited property
    name adds nothing. *)
Lemma unknown_skill_no_matches (skill : string) (proficiency : Z) :
  jobRoles !! skill = None → skill ∉ Object_prototype →
  generateJobMatches [skill] [proficiency] = Returns [].
Proof.
  intros Hnone Hnin.
  rewrite generateJobMatches_returns by (by repeat constructor).
  simpl. unfold roleOptionsOf. rewrite Hnone. reflexivity.
Qed.

(** C7 (degenerate inputs): the code departs from the claim on skills
    absent from the table.  [toString] is such a skill, and the call throws
    instead of returning the empty list: the property read finds
    [Object.prototype.toString]. *)
Theorem unknown_skill_throws :
  jobRoles !! "toString" = None
  ∧ generateJobMatches ["toString"] [95]
    = Throws (TypeError "roleOptions.forEach is not a function").
Proof. split; vm_compute; reflexivity. Qed.

(** ** Attendance *)

Lemma inject_Z_pos (n : Z) : 0 < n → (0 < inject_Z n)%Q.
Proof. intros H. change 0%Q with (inject_Z 0). by rewrite <- Zlt_Qlt. Qed.


Lemma inject_Z_nonneg (n : Z) : 0 ≤ n → (0 <= inject_Z n)%Q.
Proof. intros H. change 0%Q with (inject_Z 0). by rewrite <- Zle_Qle. Qed.

Lemma filter_present (records : list AttendanceRecord) :
  filter (λ r, present r) records = filter (λ r, present r = true) records.
Proof. apply list_filter_iff. intros r. by destruct (present r). Qed.

(** The figure of a list that is not empty, from its two counts. *)
Lemma attendance_counts (records : list AttendanceRecord) :
  records ≠ [] →
  computeAttendancePercentage records
  = Math_round
      (percentageOf
         (Z.of_nat (length (filter (λ r, present r = true) records)))
         (Z.of_nat (length records))).
Proof.
  intros Hne. unfold computeAttendancePercentage, attendancePercentage.
  rewrite bool_decide_eq_true_2 by (destruct records; [done|simpl; lia]).
  by rewrite filter_present.
Qed.

Lemma counts_range (records : list AttendanceRecord) :
  records ≠ [] →
  0 ≤ Z.of_nat (length (filter (λ r, present r = true) records))
    ≤ Z.of_nat (length records)
  ∧ 0 < Z.of_nat (length records).
Proof.
  intros Hne. split_and!.
  - lia.
  - apply inj_le, length_filter.
  - destruct records; [done|simpl; lia].
Qed.

(** Nothing present: both roundings are of 0. *)
Lemma percentageOf_none (total : Z) : percentageOf 0 total = 0%Q.
Proof.
  unfold percentageOf, Number_div.
  rewrite (fl_zero (inject_Z 0 / inject_Z total)); [reflexivity|].
  unfold Qdiv. change (inject_Z 0) with 0%Q. ring.
Qed.

(** Everything present: the quotient is 1 and the product 100, both
    doubles. *)
Lemma percentageOf_all (total : Z) : 0 < total → percentageOf total total = 100%Q.
Proof.
  intros Hpos%inject_Z_pos. unfold percentageOf, Number_div.
  rewrite (fl_comp (inject_Z total / inject_Z total) 1).
  - rewrite fl_1. vm_compute. reflexivity.
  - apply Qle_shift_div_l; lra.
  - field. lra.
Qed.

Lemma quotient_le (k n k' n' : Z) :
  0 < n → 0 < n' → k * n' ≤ k' * n →
  (inject_Z k / inject_Z n <= inject_Z k' / inject_Z n')%Q.
Proof.
  intros Hn%inject_Z_pos Hn'%inject_Z_pos Hcross.
  rewrite Zle_Qle, !inject_Z_mult in Hcross.
  apply Qle_shift_div_l; [done|].
  assert (inject_Z k / inject_Z n * inject_Z n'
          == inject_Z k * inject_Z n' / inject_Z n) as -> by (field; lra).
  by apply Qle_shift_div_r.
Qed.

(** Rounding keeps the order of the exact quotients. *)
Lemma percentageOf_monotone (k n k' n' : Z) :
  0 ≤ k → 0 < n → 0 < n' → k * n' ≤ k' * n →
  (percentageOf k n <= percentageOf k' n')%Q.
Proof.
  intros Hk Hn Hn' Hcross. unfold percentageOf, Number_mul, Number_div.
  assert (0 <= inject_Z k / inject_Z n)%Q as Hquot.
  { apply Qle_shift_div_l; [by apply inject_Z_pos|].
    pose proof (inject_Z_nonneg k Hk). lra. }
  pose proof (fl_nonneg _ Hquot) as Hnonneg.
  pose proof (fl_monotone _ _ Hquot (quotient_le k n k' n' Hn Hn' Hcross)) as Hle.
  apply fl_monotone; lra.
Qed.



(** The figure is a percentage, whatever the number of records. *)
Lemma computeAttendancePercentage_range (records : list AttendanceRecord) :
  0 ≤ computeAttendancePercentage records ≤ 100.
Proof.
  destruct (decide (records = [])) as [->|Hne]; [done|].
  destruct (counts_range records Hne) as [[Hcount0 Hcount] Htotal].
  rewrite attendance_counts by done. split.
  - change 0 with (Math_round 0). apply Math_round_monotone.
    rewrite <- (percentageOf_none (Z.of_nat (length records))).
    apply percentageOf_monotone; lia.
  - change 100 with (Math_round 100). apply Math_round_monotone.
    rewrite <- (percentageOf_all (Z.of_nat (length records))) by done.
    apply percentageOf_monotone; nia.
Qed.



(** C10 (every score is 98).  Every threshold of the table is positive, so
    a proficiency that reaches it gives a rounded ratio of at least 100,
    which the cap brings to 98: every returned match has score 98, the sort
    leaves the collected array as it is, and the returned list is its first
    two elements. *)
Theorem matchScore_always_98 (skills : list string) (proficiencyLevels : list Z)
    (result : list JobMatch) :
  generateJobMatches skills proficiencyLevels = Returns result →
  (∀ m, m ∈ result → matchScore m = 98)
  ∧ (∀ skill p option,
       option ∈ roleOptionsOf skill → (minScore option ≤ p)%Z →
       (0 < minScore option)%Z
       ∧ (100 ≤ Math_round (inject_Z p / inject_Z (minScore option) * 100)%Q)%Z)
  ∧ ∃ matches,
      collectMatches skills proficiencyLevels = Returns matches
      ∧ sort byMatchScore matches = matches
      ∧ result = take 2 matches.
Proof.
  intros Hret. split_and!.
  - intros m Hin. eapply originates_score, returned_originates; done.
  - intros skill p option Hin%minScore_range Hle. split; [lia|].
    rewrite Math_round_quotient by lia.
    apply Z.div_le_lower_bound; lia.
  - apply generateJobMatches_inv in Hret as (_ & Hcollect & ->).
    exists (matchesFrom proficiencyLevels skills 0).
    by rewrite collected_ties.
Qed.

Lemma matchScore_always_98_witness :
  let skills := ["Java"; "Python"] in
  let proficiencyLevels := [100; 100] in
  let result :=
    [jobMatch "Java" 100 (mkRoleOption "Software Engineer" "Enterprise Systems" 85);
     jobMatch "Java" 100 (mkRoleOption "Android Developer" "Mobile Solutions" 88)] in
  generateJobMatches skills proficiencyLevels = Returns result
  ∧ (∀ m, m ∈ result → matchScore m = 98)
  ∧ (∀ skill p option,
       option ∈ roleOptionsOf skill → (minScore option ≤ p)%Z →
       (0 < minScore option)%Z
       ∧ (100 ≤ Math_round (inject_Z p / inject_Z (minScore option) * 100)%Q)%Z)
  ∧ ∃ matches,
      collectMatches skills proficiencyLevels = Returns matches
      ∧ sort byMatchScore matches = matches
      ∧ result = take 2 matches.
Proof.
  intros skills proficiencyLevels result.
  assert (generateJobMatches skills proficiencyLevels = Returns result) as Hret
    by (vm_compute; reflexivity).
  split; [exact Hret|].
  exact (matchScore_always_98 skills proficiencyLevels result Hret).
Defined.

(** * Around the claims: the draws of the Dashboard *)

(** The floor of a rounded product [r * 30], for a double [r] from 0 up to
    and not including 1. *)
Lemma draw_floor (r : Q) :
  representable r → (0 <= r)%Q → (r < 1)%Q →
  0 ≤ Math_floor (Number_mul r 30) ≤ 29.
Proof.
  intros Hdouble Hr0 Hr1.
  pose proof (double_below_one r Hdouble Hr0 Hr1) as Htop.
  unfold Math_floor, Number_mul. split.
  - rewrite <- (Qfloor_Z 0). apply Qfloor_resp_le.
    change (inject_Z 0) with 0%Q. apply fl_nonneg. lra.
  - enough (Qfloor (fl (r * 30)) < 30) by lia.
    rewrite Zlt_Qlt. eapply Qle_lt_trans; [apply Qfloor_le|].
    change (inject_Z 30) with 30%Q.
    eapply Qle_lt_trans; [|apply fl_below_30].
    apply fl_monotone; lra.
Qed.

(** The rounding of the product is seen in the level: for this draw the
    exact product is below 17 and the rounded one is 17. *)
Lemma rounded_draw :
  let r := (2552039788843281 # 4503599627370496)%Q in
  representable r
  ∧ Qfloor (r * 30) = 16
  ∧ (skillProficiencyLevels ["Python"] (mkWorld (λ _, r) 0)).1 = [87].
Proof. split_and!; vm_compute; reflexivity. Qed.

Lemma skillProficiencyLevels_world (skills : list string) (w : World) :
  (skillProficiencyLevels skills w).2
  = mkWorld (random w) (randomCalls w + length skills).
Proof.
  unfold skillProficiencyLevels. revert w.
  induction skills as [|skill rest IH]; intros [rnd n]; simpl.
  - by rewrite Nat.add_0_r.
  - specialize (IH (mkWorld rnd (S n))).
    destruct (map_world _ rest _) as [levels w2]. simpl in *.
    rewrite IH. f_equal. lia.
Qed.

Lemma skillProficiencyLevels_lookup (skills : list string) (w : World) (i : nat) :
  (skillProficiencyLevels skills w).1 !! i
  = if bool_decide (i < length skills)%nat
    then Some (Math_floor (Number_mul (random w (randomCalls w + i)) 30) + 70)
    else None.
Proof.
  unfold skillProficiencyLevels. revert w i.
  induction skills as [|skill rest IH]; intros [rnd n] i;
    cbn [map_world Math_random random randomCalls length]; [done|].
  specialize (IH (mkWorld rnd (S n))).
  destruct (map_world _ rest _) as [levels w2].
  cbn [fst random randomCalls] in *.
  destruct i as [|i]; cbn [lookup list_lookup].
  - by rewrite Nat.add_0_r.
  - rewrite IH, Nat.add_succ_r.
    repeat case_bool_decide; done || lia.
Qed.

Lemma skillProficiencyLevels_length (skills : list string) (w : World) :
  length (skillProficiencyLevels skills w).1 = length skills.
Proof.
  apply Nat.le_antisymm.
  - apply Nat.nlt_ge. intros Hlt.
    pose proof (skillProficiencyLevels_lookup skills w (length skills)) as Hget.
    rewrite bool_decide_eq_false_2 in Hget by lia.
    apply lookup_ge_None_1 in Hget. lia.
  - apply Nat.nlt_ge. intros Hlt.
    pose proof (skillProficiencyLevels_lookup skills w
                  (length (skillProficiencyLevels skills w).1)) as Hget.
    rewrite bool_decide_eq_true_2 in Hget by done.
    rewrite lookup_ge_None_2 in Hget by done. done.
Qed.

Lemma skillProficiencyLevels_range (skills : list string) (w : World) :
  (∀ n, representable (random w n)
        ∧ (0 <= random w n)%Q ∧ (random w n < 1)%Q) →
  Forall (λ level, 70 ≤ level ≤ 99)%Z (skillProficiencyLevels skills w).1.
Proof.
  intros Hrandom. apply Forall_lookup. intros i level Hget.
  rewrite skillProficiencyLevels_lookup in Hget.
  case_bool_decide; [|done]. simplify_eq.
  destruct (Hrandom (randomCalls w + i)%nat) as (Hdouble & H0 & H1).
  pose proof (draw_floor _ Hdouble H0 H1) as Hfloor. lia.
Qed.

(** X1.  The proficiency levels the Dashboard draws: one for each skill,
    every one an integer from 70 to 99, for one call of [Math.random]
    each, when every number drawn is a double from 0 up to and not
    including 1. *)
Theorem drawn_levels (skills : list string) (w : World) :
  (∀ n, representable (random w n)
        ∧ (0 <= random w n)%Q ∧ (random w n < 1)%Q) →
  length (skillProficiencyLevels skills w).1 = length skills
  ∧ Forall (λ level, 70 ≤ level ≤ 99)%Z (skillProficiencyLevels skills w).1
  ∧ randomCalls (skillProficiencyLevels skills w).2
    = (randomCalls w + length skills)%nat.
Proof.
  intros Hrandom. split_and!.
  - apply skillProficiencyLevels_length.
  - by apply skillProficiencyLevels_range.
  - by rewrite skillProficiencyLevels_world.
Qed.

Lemma drawn_levels_witness :
  let w := mkWorld (λ _, 1 # 2)%Q 0 in
  let skills := ["Python"; "Go"] in
  (∀ n, representable (random w n)
        ∧ (0 <= random w n)%Q ∧ (random w n < 1)%Q)
  ∧ length (skillProficiencyLevels skills w).1 = length skills
  ∧ Forall (λ level, 70 ≤ level ≤ 99)%Z (skillProficiencyLevels skills w).1
  ∧ randomCalls (skillProficiencyLevels skills w).2
    = (randomCalls w + length skills)%nat.
Proof.
  intros w skills.
  assert (∀ n, representable (random w n)
               ∧ (0 <= random w n)%Q ∧ (random w n < 1)%Q) as Hrandom
    by (intros n; split_and!; vm_compute; [reflexivity|discriminate|reflexivity]).
  split; [exact Hrandom|]. exact (drawn_levels skills w Hrandom).
Defined.

(** X2.  The job matches of the Dashboard.  When the skills name no member
    of [Object.prototype] and every number drawn is a double from 0 up to
    and not including 1, the call of [generateJobMatches] on the drawn
    levels returns; the two arrays it is given have the same length; at most
    two matches are shown, each with score 98, and each for one of the
    skills, whose drawn level lies between 80 and 99 and reaches the
    threshold of the option. *)
Theorem updatedJobMatches_shown (skills : list string) (w : World) :
  (∀ n, representable (random w n)
        ∧ (0 <= random w n)%Q ∧ (random w n < 1)%Q) →
  Forall (λ skill, skill ∉ Object_prototype) skills →
  ∃ result,
    updatedJobMatches skills w = Returns result
    ∧ length (skillProficiencyLevels skills w).1 = length skills
    ∧ (length result ≤ 2)%nat
    ∧ ∀ m, m ∈ result →
        matchScore m = 98
        ∧ ∃ i skill level option,
            skills !! i = Some skill
            ∧ (skillProficiencyLevels skills w).1 !! i = Some level
            ∧ (80 ≤ level ≤ 99)%Z
            ∧ option ∈ roleOptionsOf skill
            ∧ (minScore option ≤ level)%Z
            ∧ m = jobMatch skill level option.
Proof.
  intros Hrandom Hall. unfold updatedJobMatches.
  pose proof (skillProficiencyLevels_range skills w Hrandom) as Hrange.
  pose proof (skillProficiencyLevels_length skills w) as Hlength.
  destruct (skillProficiencyLevels skills w) as [levels w1]. simpl in *.
  destruct (generateJobMatches skills levels) as [result|e] eqn:Hret.
  2: { rewrite generateJobMatches_returns in Hret by done. done. }
  exists result.
  split_and!; [done|done|by eapply generateJobMatches_length|].
  intros m Hin.
  pose proof (returned_originates _ _ _ _ Hret Hin) as Horigin.
  split; [by eapply originates_score|].
  destruct Horigin as (i & skill & level & option & Hskill & Hlevel & Hopt & Hle & ->).
  exists i, skill, level, option. split_and!; try done.
  - apply minScore_range in Hopt. lia.
  - rewrite Forall_lookup in Hrange. specialize (Hrange _ _ Hlevel). lia.
Qed.

Lemma updatedJobMatches_shown_witness :
  let w := mkWorld (λ _, 1 # 2)%Q 0 in
  let skills := ["Python"; "Go"] in
  (∀ n, representable (random w n)
        ∧ (0 <= random w n)%Q ∧ (random w n < 1)%Q)
  ∧ Forall (λ skill, skill ∉ Object_prototype) skills
  ∧ ∃ result,
      updatedJobMatches skills w = Returns result
      ∧ length (skillProficiencyLevels skills w).1 = length skills
      ∧ (length result ≤ 2)%nat
      ∧ ∀ m, m ∈ result →
          matchScore m = 98
          ∧ ∃ i skill level option,
              skills !! i = Some skill
              ∧ (skillProficiencyLevels skills w).1 !! i = Some level
              ∧ (80 ≤ level ≤ 99)%Z
              ∧ option ∈ roleOptionsOf skill
              ∧ (minScore option ≤ level)%Z
              ∧ m = jobMatch skill level option.
Proof.
  intros w skills.
  assert (∀ n, representable (random w n)
               ∧ (0 <= random w n)%Q ∧ (random w n < 1)%Q) as Hrandom
    by (intros n; split_and!; vm_compute; [reflexivity|discriminate|reflexivity]).
  assert (Forall (λ skill, skill ∉ Object_prototype) skills) as Hall
    by (apply (bool_decide_unpack
                 (Forall (λ skill, skill ∉ Object_prototype) skills));
        vm_compute; exact I).
  split_and!; [exact Hrandom|exact Hall|].
  exact (updatedJobMatches_shown skills w Hrandom Hall).
Defined.

(** * Around the claims: generateJobMatches *)

(** X3.  The error behaviour: a call throws exactly when one of the skills
    names a member of [Object.prototype], wherever it stands in the array
    and whatever the other skills would have contributed; what is thrown
    is the [TypeError] of the missing [forEach]. *)
Theorem throws_on_inherited_names (skills : list string)
    (proficiencyLevels : list Z) :
  ((∃ e, generateJobMatches skills proficiencyLevels = Throws e)
   ↔ Exists (λ skill, skill ∈ Object_prototype) skills)
  ∧ ∀ e, generateJobMatches skills proficiencyLevels = Throws e →
         e = TypeError "roleOptions.forEach is not a function".
Proof.
  destruct (decide (Exists (λ skill, skill ∈ Object_prototype) skills))
    as [Hex|Hnex].
  - rewrite generateJobMatches_throws by done. split.
    + split; [done|]. intros _. by eexists.
    + by intros e [= <-].
  - assert (Forall (λ skill, skill ∉ Object_prototype) skills) as Hall.
    { apply Forall_forall. intros skill Hin Hproto. apply Hnex.
      apply Exists_exists. by exists skill. }
    rewrite generateJobMatches_returns by done. split; [|done].
    split; [by intros [e ?]|done].
Qed.

(** X4.  No option of the table asks for less than 80: when every
    proficiency level is below 80 the call returns the empty list. *)
Theorem no_match_below_80 (skills : list string) (proficiencyLevels : list Z) :
  Forall (λ skill, skill ∉ Object_prototype) skills →
  Forall (λ level, level < 80)%Z proficiencyLevels →
  generateJobMatches skills proficiencyLevels = Returns [].
Proof.
  intros Hall Hlow. apply generateJobMatches_ineligible; [done|].
  intros m (i & skill & p & option & _ & Hp & Hin%minScore_range & Hle & _).
  rewrite Forall_lookup in Hlow. specialize (Hlow _ _ Hp). simpl in Hlow. lia.
Qed.

Lemma no_match_below_80_witness :
  let skills := ["Python"; "JavaScript"; "Java"; "C++"] in
  let proficiencyLevels := [79; 70; 75; 0] in
  Forall (λ skill, skill ∉ Object_prototype) skills
  ∧ Forall (λ level, level < 80)%Z proficiencyLevels
  ∧ generateJobMatches skills proficiencyLevels = Returns [].
Proof.
  intros skills proficiencyLevels.
  assert (Forall (λ skill, skill ∉ Object_prototype) skills) as Hall
    by (apply (bool_decide_unpack
                 (Forall (λ skill, skill ∉ Object_prototype) skills));
        vm_compute; exact I).
  assert (Forall (λ level, level < 80)%Z proficiencyLevels) as Hlow
    by (repeat constructor).
  split_and!; [exact Hall|exact Hlow|].
  exact (no_match_below_80 skills proficiencyLevels Hall Hlow).
Defined.

(** X5.  The first skill comes first whatever the proficiencies: once two
    of its options qualify, the skills after it and their levels have no
    influence on the result. *)
Theorem first_skill_priority (skill : string) (rest : list string)
    (p : Z) (levels : list Z) :
  Forall (λ skill, skill ∉ Object_prototype) (skill :: rest) →
  (2 ≤ length (filter (λ option, minScore option ≤ p)%Z (roleOptionsOf skill)))%nat →
  generateJobMatches (skill :: rest) (p :: levels)
  = generateJobMatches [skill] [p].
Proof.
  intros Hall Htwo.
  rewrite !generateJobMatches_returns, !collected_ties;
    [|by apply Forall_inv in Hall; repeat constructor|done].
  f_equal. simpl. rewrite app_nil_r.
  apply take_app_le. by rewrite length_fmap.
Qed.

Lemma first_skill_priority_witness :
  let skill := "Python" in
  let rest := ["C++"] in
  Forall (λ skill, skill ∉ Object_prototype) (skill :: rest)
  ∧ (2 ≤ length (filter (λ option, minScore option ≤ 85)%Z (roleOptionsOf skill)))%nat
  ∧ generateJobMatches (skill :: rest) [85; 99] = generateJobMatches [skill] [85].
Proof.
  intros skill rest.
  assert (Forall (λ skill, skill ∉ Object_prototype) (skill :: rest)) as Hall
    by (apply (bool_decide_unpack
                 (Forall (λ skill, skill ∉ Object_prototype) (skill :: rest)));
        vm_compute; exact I).
  assert (2 ≤ length (filter (λ option, minScore option ≤ 85)%Z
                             (roleOptionsOf skill)))%nat as Htwo
    by (vm_compute; repeat constructor).
  split_and!; [exact Hall|exact Htwo|].
  exact (first_skill_priority skill rest 85 [99] Hall Htwo).
Defined.

Lemma roleOptionsOf_NoDup (skill : string) : NoDup (roleOptionsOf skill).
Proof.
  destruct (roleOptionsOf_cases skill) as [->|Hkey]; [constructor|].
  set_unfold in Hkey.
  destruct Hkey as [->|[->|[->|[->|[]]]]]; vm_compute roleOptionsOf;
    repeat (constructor; [set_unfold; intros ?; destruct_or?; done|]);
    constructor.
Qed.

Lemma qualifying_NoDup (skill : string) (proficiency : option Z) :
  NoDup (qualifying skill proficiency (roleOptionsOf skill)).
Proof.
  unfold qualifying. destruct proficiency as [p|]; [|constructor].
  apply NoDup_fmap_2_strong.
  - intros option option' [_ Hin]%list_elem_of_filter
           [_ Hin']%list_elem_of_filter Heq.
    by apply jobMatch_inj in Heq as (_ & _ & ?).
  - apply NoDup_filter, roleOptionsOf_NoDup.
Qed.

Lemma matchesFrom_NoDup (proficiencyLevels : list Z) (skills : list string)
    (index : nat) :
  NoDup skills → NoDup (matchesFrom proficiencyLevels skills index).
Proof.
  intros Hnodup. revert index.
  induction Hnodup as [|skill rest Hfresh Hnodup IH]; intros index; simpl;
    [constructor|].
  apply NoDup_app. split_and!; [apply qualifying_NoDup| |apply IH].
  intros m (p & option & _ & Hin & _ & ->)%elem_of_qualifying
         (j & skill' & p' & option' & Hskill' & _ & Hin' & _ & Heq)%elem_of_matchesFrom.
  apply jobMatch_inj in Heq as (-> & _); [|done..].
  apply Hfresh. by eapply list_elem_of_lookup_2.
Qed.

(** X6.  No recommendation is shown twice: when no skill is listed twice,
    the returned matches are pairwise different. *)
Theorem no_duplicate_matches (skills : list string) (proficiencyLevels : list Z)
    (result : list JobMatch) :
  NoDup skills →
  generateJobMatches skills proficiencyLevels = Returns result →
  NoDup result.
Proof.
  intros Hnodup (_ & _ & ->)%generateJobMatches_inv.
  rewrite collected_ties.
  eapply sublist_NoDup; [|apply sublist_take]. by apply matchesFrom_NoDup.
Qed.

Lemma no_duplicate_matches_witness :
  let skills := ["Java"; "JavaScript"] in
  let proficiencyLevels := [82; 99] in
  let result :=
    [jobMatch "Java" 82 (mkRoleOption "Backend Developer" "Cloud Services Ltd" 82);
     jobMatch "JavaScript" 99
       (mkRoleOption "Frontend Developer" "WebTech Solutions" 80)] in
  NoDup skills
  ∧ generateJobMatches skills proficiencyLevels = Returns result
  ∧ NoDup result.
Proof.
  intros skills proficiencyLevels result.
  assert (NoDup skills) as Hnodup
    by (apply (bool_decide_unpack (NoDup skills)); vm_compute; exact I).
  assert (generateJobMatches skills proficiencyLevels = Returns result) as Hret
    by (vm_compute; reflexivity).
  split_and!; [exact Hnodup|exact Hret|].
  exact (no_duplicate_matches skills proficiencyLevels result Hnodup Hret).
Defined.

(** * Around the claims: the attendance figure *)

(** X7.  The figure counts and does not look at the order: two lists with
    the same records, in any order, give the same percentage. *)
Theorem attendance_order_irrelevant (records records' : list AttendanceRecord) :
  records ≡ₚ records' →
  computeAttendancePercentage records = computeAttendancePercentage records'.
Proof.
  intros Hperm.
  destruct records as [|record records0] eqn:Hrecords.
  { by apply Permutation_nil_l in Hperm as ->. }
  rewrite <- Hrecords in *.
  assert (records ≠ []) as Hne by by subst.
  assert (records' ≠ []) as Hne'.
  { intros ->. by apply Permutation_nil_r in Hperm. }
  rewrite !attendance_counts by done. by rewrite Hperm.
Qed.

Lemma attendance_order_irrelevant_witness :
  let present := mkAttendanceRecord true in
  let absent := mkAttendanceRecord false in
  [present; absent; absent] ≡ₚ [absent; present; absent]
  ∧ computeAttendancePercentage [present; absent; absent]
    = computeAttendancePercentage [absent; present; absent].
Proof.
  intros present absent.
  assert ([present; absent; absent] ≡ₚ [absent; present; absent]) as Hperm
    by apply Permutation_swap.
  split; [exact Hperm|]. exact (attendance_order_irrelevant _ _ Hperm).
Defined.

Lemma filter_present_all (records : list AttendanceRecord) :
  Forall (λ r, present r = true) records →
  filter (λ r, present r = true) records = records.
Proof.
  induction 1 as [|r records Hr _ IH]; [done|].
  by rewrite filter_cons_True, IH.
Qed.

Lemma filter_present_none (records : list AttendanceRecord) :
  Forall (λ r, present r = false) records →
  filter (λ r, present r = true) records = [].
Proof.
  induction 1 as [|r records Hr _ IH]; [done|].
  by rewrite filter_cons_False by by rewrite Hr.
Qed.

(** X8.  The two ends of the scale: with at least one record, the figure
    is 100 when every record is present and 0 when none is. *)
Theorem attendance_extremes (record : AttendanceRecord)
    (records : list AttendanceRecord) :
  (Forall (λ r, present r = true) (record :: records) →
   computeAttendancePercentage (record :: records) = 100)
  ∧ (Forall (λ r, present r = false) (record :: records) →
     computeAttendancePercentage (record :: records) = 0).
Proof.
  split; intros Hall; rewrite attendance_counts by done.
  - rewrite filter_present_all by done.
    rewrite percentageOf_all by (cbn [length]; lia). reflexivity.
  - rewrite filter_present_none by done.
    cbn [length]. change (Z.of_nat 0) with 0.
    rewrite percentageOf_none. reflexivity.
Qed.

(** X9.  One more present record never lowers the figure, and one more
    absent record never raises it. *)
Theorem attendance_monotone (record : AttendanceRecord)
    (records : list AttendanceRecord) :
  (present record = true →
   (computeAttendancePercentage records
    ≤ computeAttendancePercentage (record :: records))%Z)
  ∧ (present record = false →
     (computeAttendancePercentage (record :: records)
      ≤ computeAttendancePercentage records)%Z).
Proof.
  pose proof (length_filter (λ r, present r = true) records) as Hcount.
  split; intros Hpresent.
  - destruct (decide (records = [])) as [->|Hne].
    { apply computeAttendancePercentage_range. }
    destruct (counts_range records Hne) as [_ Htotal].
    rewrite (attendance_counts (record :: records)) by done.
    rewrite (attendance_counts records) by done.
    rewrite filter_cons_True by done. cbn [length].
    apply Math_round_monotone, percentageOf_monotone; nia.
  - destruct (decide (records = [])) as [->|Hne].
    { rewrite attendance_counts by done.
      rewrite filter_cons_False by by rewrite Hpresent.
      cbn [filter list_filter length]. change (Z.of_nat 0) with 0.
      by rewrite percentageOf_none. }
    destruct (counts_range records Hne) as [_ Htotal].
    rewrite (attendance_counts (record :: records)) by done.
    rewrite (attendance_counts records) by done.
    rewrite filter_cons_False by by rewrite Hpresent. cbn [length].
    apply Math_round_monotone, percentageOf_monotone; nia.
Qed.

(** * AppContent: navigation and panels *)

(** X11.  Every item the navigation offers to a role leads somewhere: with
    that item active, [main] holds exactly one component. *)
Theorem navigation_leads_to_a_panel (userRole : option string)
    (selectedLanguage : string) (item : NavigationItem) :
  item ∈ getNavigationItems userRole →
  ∃ panel, mainPanels (item_id item) userRole selectedLanguage = [panel].
Proof.
  unfold getNavigationItems.
  repeat case_bool_decide; subst; set_unfold; intros Hitem;
    destruct_or?; subst; try done; eexists; reflexivity.
Qed.

Lemma navigation_leads_to_a_panel_witness :
  let item := mkNavigationItem "attendance" "Users" "Attendance" in
  item ∈ getNavigationItems (Some "faculty")
  ∧ ∃ panel, mainPanels (item_id item) (Some "faculty") "python" = [panel].
Proof.
  intros item.
  assert (item ∈ getNavigationItems (Some "faculty")) as Hitem
    by (vm_compute; set_solver).
  split; [exact Hitem|].
  exact (navigation_leads_to_a_panel (Some "faculty") "python" item Hitem).
Defined.

(** Membership in a list of at most one element. *)
Ltac inList H :=
  first [ apply elem_of_nil in H; destruct H
        | apply list_elem_of_singleton in H; simplify_eq ].

(** What [main] can hold, with the tab and the role it takes. *)
Lemma mainPanels_cases (activeTab : string) (userRole : option string)
    (selectedLanguage : string) :
  let panels := mainPanels activeTab userRole selectedLanguage in
  panels = []
  ∨ (panels = [CodeEditorPanel selectedLanguage]
     ∧ activeTab = "editor" ∧ userRole = Some "student")
  ∨ (panels = [CourseListPanel] ∧ activeTab = "courses")
  ∨ (panels = [AssessmentListPanel (bool_decide (userRole = Some "faculty"))]
     ∧ activeTab = "assessments")
  ∨ (panels = [DashboardPanel]
     ∧ activeTab = "dashboard" ∧ userRole = Some "student")
  ∨ (panels = [AdminDashboardPanel]
     ∧ activeTab = "dashboard" ∧ userRole = Some "admin")
  ∨ (panels = [AttendanceManagerPanel]
     ∧ activeTab = "attendance" ∧ userRole = Some "faculty").
Proof.
  intros panels. subst panels. unfold mainPanels, when.
  destruct (decide (activeTab = "editor")) as [->|];
    [|destruct (decide (activeTab = "courses")) as [->|];
      [|destruct (decide (activeTab = "assessments")) as [->|];
        [|destruct (decide (activeTab = "dashboard")) as [->|];
          [|destruct (decide (activeTab = "attendance")) as [->|]]]]];
    repeat (rewrite ?(bool_decide_eq_true_2 (_ = _ :> string)),
                    ?(bool_decide_eq_false_2 (_ = _ :> string)) by done);
    cbn [andb app].
  - case_bool_decide; cbn [app]; auto 10.
  - auto 10.
  - auto 10.
  - case_bool_decide as Hstudent; cbn [app].
    + rewrite bool_decide_eq_false_2 by (by rewrite Hstudent). auto 10.
    + case_bool_decide; cbn [app]; auto 10.
  - case_bool_decide; cbn [app]; auto 10.
  - auto.
Qed.

Lemma languageSelect_with_editor (activeTab : string)
    (userRole : option string) (selectedLanguage : string) :
  bool_decide (activeTab = "editor") && bool_decide (userRole = Some "student")
  = true
  ↔ CodeEditorPanel selectedLanguage
    ∈ mainPanels activeTab userRole selectedLanguage.
Proof.
  destruct (mainPanels_cases activeTab userRole selectedLanguage)
    as [Hp|[(Hp & -> & ->)|[(Hp & ->)|[(Hp & ->)|[(Hp & -> & ->)
       |[(Hp & -> & ->)|(Hp & -> & ->)]]]]]];
    rewrite Hp.
  2: { split; [intros _; by apply list_elem_of_singleton|done]. }
  2-6: split; [done|intros Hin; inList Hin; done].
  split; [|intros Hin; inList Hin; done].
  intros [Htab Hrole]%andb_true_iff.
  apply bool_decide_eq_true in Htab, Hrole. subst.
  by vm_compute in Hp.
Qed.

(** X12.  What [AppContent] shows and to whom.  Navigation and panels
    appear only when loading is over and a user is signed in; [main] never
    holds two components; the code editor and the student dashboard are
    shown to the student role only, the admin dashboard to the admin role
    only, the attendance manager to the faculty role only; the assessment
    list is in teacher mode exactly for the faculty role; and the language
    selector is shown exactly together with the code editor. *)
Theorem panels_by_role (loading : bool) (user : option User)
    (userRole : option string) (activeTab selectedLanguage : string)
    (navigation : list NavigationItem) (languageSelect : bool)
    (panels : list Panel) :
  AppContent loading user userRole activeTab selectedLanguage
  = MainScreen navigation languageSelect panels →
  loading = false
  ∧ is_Some user
  ∧ (length panels ≤ 1)%nat
  ∧ (∀ language, CodeEditorPanel language ∈ panels →
       userRole = Some "student" ∧ language = selectedLanguage)
  ∧ (DashboardPanel ∈ panels → userRole = Some "student")
  ∧ (AdminDashboardPanel ∈ panels → userRole = Some "admin")
  ∧ (AttendanceManagerPanel ∈ panels → userRole = Some "faculty")
  ∧ (∀ isTeacher, AssessmentListPanel isTeacher ∈ panels →
       (isTeacher = true ↔ userRole = Some "faculty"))
  ∧ (languageSelect = true ↔ CodeEditorPanel selectedLanguage ∈ panels).
Proof.
  unfold AppContent. destruct loading; [done|].
  destruct user as [user|]; [|done]. intros [= <- <- <-].
  split; [done|]. split; [by eexists|].
  pose proof (languageSelect_with_editor activeTab userRole selectedLanguage)
    as Hselect.
  destruct (mainPanels_cases activeTab userRole selectedLanguage)
    as [Hp|[(Hp & -> & ->)|[(Hp & ->)|[(Hp & ->)|[(Hp & -> & ->)
       |[(Hp & -> & ->)|(Hp & -> & ->)]]]]]];
    rewrite Hp in Hselect |- *; clear Hp;
    (split_and!;
     [simpl; lia
     |intros language Hin; inList Hin; done
     |intros Hin; inList Hin; done
     |intros Hin; inList Hin; done
     |intros Hin; inList Hin; done
     |intros isTeacher Hin; inList Hin; by rewrite bool_decide_eq_true
     |exact Hselect]).
Qed.

Lemma panels_by_role_witness :
  let navigation := getNavigationItems (Some "admin") in
  AppContent false (Some (mkUser "7")) (Some "admin") "dashboard" "python"
  = MainScreen navigation false [AdminDashboardPanel]
  ∧ false = false
  ∧ is_Some (Some (mkUser "7"))
  ∧ (length [AdminDashboardPanel] ≤ 1)%nat
  ∧ (∀ language, CodeEditorPanel language ∈ [AdminDashboardPanel] →
       Some "admin" = Some "student" ∧ language = "python")
  ∧ (DashboardPanel ∈ [AdminDashboardPanel] → Some "admin" = Some "student")
  ∧ (AdminDashboardPanel ∈ [AdminDashboardPanel] → Some "admin" = Some "admin")
  ∧ (AttendanceManagerPanel ∈ [AdminDashboardPanel] →
     Some "admin" = Some "faculty")
  ∧ (∀ isTeacher, AssessmentListPanel isTeacher ∈ [AdminDashboardPanel] →
       (isTeacher = true ↔ Some "admin" = Some "faculty"))
  ∧ (false = true ↔ CodeEditorPanel "python" ∈ [AdminDashboardPanel]).
Proof.
  intros navigation.
  assert (AppContent false (Some (mkUser "7")) (Some "admin") "dashboard" "python"
          = MainScreen navigation false [AdminDashboardPanel]) as Hscreen
    by (vm_compute; reflexivity).
  split; [exact Hscreen|].
  exact (panels_by_role false (Some (mkUser "7")) (Some "admin") "dashboard"
           "python" navigation false [AdminDashboardPanel] Hscreen).
Defined.

(** X13.  The tab that is active at first shows a component to the student
    and the admin roles and to no other role: a faculty user, whose three
    navigation items do not include that tab, starts on an empty [main]. *)
Theorem initial_tab_panel (userRole : option string) (selectedLanguage : string) :
  (mainPanels initialActiveTab userRole selectedLanguage ≠ []
   ↔ userRole = Some "student" ∨ userRole = Some "admin")
  ∧ mainPanels initialActiveTab (Some "faculty") selectedLanguage = []
  ∧ length (getNavigationItems (Some "faculty")) = 3%nat
  ∧ initialActiveTab ∉ item_id <$> getNavigationItems (Some "faculty").
Proof.
  split_and!.
  - unfold mainPanels, when, initialActiveTab.
    repeat (rewrite ?bool_decide_eq_true_2, ?bool_decide_eq_false_2 by done).
    repeat case_bool_decide; simplify_eq; cbn [andb app];
      split; try done; try (intros [?|?]; done); auto.
  - reflexivity.
  - reflexivity.
  - vm_compute. set_unfold. intros H; destruct_or?; done.
Qed.

(** * AdminDashboard: the two handlers *)

(** Recording the calls changes nothing else. *)
Lemma adminStep_forget {Store : Type}
    (updateUsers : string → string → AccountRole → Store → Store * option Thrown)
    (removeUser : string → AccountRole → Store → Store * option Thrown)
    (event : AdminEvent) (st : AdminState (Store * list Submission)) :
  forget (adminStep (recording updateUsers) (notRecording removeUser) event st)
  = adminStep updateUsers removeUser event (forget st).
Proof.
  destruct st as [modal form messages [users calls]].
  destruct event as [role|value|value| | |id role [|]]; try reflexivity.
  - unfold adminStep, handleAddUser, recording, forget; simpl.
    destruct (bool_decide _ || bool_decide _); [reflexivity|].
    by destruct (updateUsers _ _ _ users) as [users' [error|]].
  - unfold adminStep, handleRemoveUser, notRecording, forget; simpl.
    by destruct (removeUser id role users) as [users' [error|]].
Qed.

Lemma adminRun_forget {Store : Type}
    (updateUsers : string → string → AccountRole → Store → Store * option Thrown)
    (removeUser : string → AccountRole → Store → Store * option Thrown)
    (events : list AdminEvent) (st : AdminState (Store * list Submission)) :
  forget (adminRun (recording updateUsers) (notRecording removeUser) events st)
  = adminRun updateUsers removeUser events (forget st).
Proof.
  revert st. unfold adminRun.
  induction events as [|event events IH]; intros st; simpl; [done|].
  by rewrite IH, adminStep_forget.
Qed.

Lemma adminStep_submissions {Store : Type}
    (updateUsers : string → string → AccountRole → Store → Store * option Thrown)
    (removeUser : string → AccountRole → Store → Store * option Thrown)
    (event : AdminEvent) (st : AdminState (Store * list Submission)) :
  Forall (λ call : Submission, call.1.1 ≠ "" ∧ call.1.2 ≠ "")
         (authorizedUsers st).2 →
  Forall (λ call : Submission, call.1.1 ≠ "" ∧ call.1.2 ≠ "")
         (authorizedUsers
            (adminStep (recording updateUsers) (notRecording removeUser)
                       event st)).2.
Proof.
  destruct st as [modal form messages [users calls]]. simpl. intros Hcalls.
  destruct event as [role|value|value| | |id role [|]]; try done.
  - unfold adminStep, handleAddUser, recording; simpl.
    destruct (decide (email form = "")) as [Hemail|Hemail];
      [by rewrite bool_decide_eq_true_2|].
    destruct (decide (password form = "")) as [Hpassword|Hpassword];
      [by rewrite (bool_decide_eq_true_2 (password form = "")), orb_true_r|].
    rewrite !bool_decide_eq_false_2 by done. simpl.
    destruct (updateUsers _ _ _ users) as [users' [error|]]; simpl;
      apply Forall_app; split; try done; by repeat constructor.
  - unfold adminStep, handleRemoveUser, notRecording; simpl.
    by destruct (removeUser id role users) as [users' [error|]].
Qed.

(** X14.  Whatever the user does on the page, in any order, [updateUsers]
    is never called with an empty email or an empty password. *)
Theorem never_submits_an_empty_field {Store : Type}
    (updateUsers : string → string → AccountRole → Store → Store * option Thrown)
    (removeUser : string → AccountRole → Store → Store * option Thrown)
    (events : list AdminEvent) (st : AdminState (Store * list Submission)) :
  (authorizedUsers st).2 = [] →
  Forall (λ call : Submission, call.1.1 ≠ "" ∧ call.1.2 ≠ "")
         (authorizedUsers
            (adminRun (recording updateUsers) (notRecording removeUser)
                      events st)).2
  ∧ forget (adminRun (recording updateUsers) (notRecording removeUser) events st)
    = adminRun updateUsers removeUser events (forget st).
Proof.
  intros Hnone. split; [|apply adminRun_forget].
  assert (Forall (λ call : Submission, call.1.1 ≠ "" ∧ call.1.2 ≠ "")
                 (authorizedUsers st).2) as Hcalls by (rewrite Hnone; constructor).
  clear Hnone. revert st Hcalls. unfold adminRun.
  induction events as [|event events IH]; intros st Hcalls; simpl; [done|].
  by apply IH, adminStep_submissions.
Qed.

Lemma never_submits_an_empty_field_witness :
  let updateUsers :=
    λ (email password : string) (role : AccountRole) (store : list string),
      (store ++ [email], @None Thrown) in
  let removeUser :=
    λ (id : string) (role : AccountRole) (store : list string),
      (store, @None Thrown) in
  let events :=
    [ClickAdd FacultyAccount; ClickSubmit; TypeEmail "a@b.c"; ClickSubmit;
     TypePassword "secret"; ClickSubmit; ClickSubmit] in
  let st :=
    mkAdminState false (mkNewUser "" "" StudentAccount) []
                 (@nil string, @nil Submission) in
  (authorizedUsers st).2 = []
  ∧ Forall (λ call : Submission, call.1.1 ≠ "" ∧ call.1.2 ≠ "")
           (authorizedUsers
              (adminRun (recording updateUsers) (notRecording removeUser)
                        events st)).2
  ∧ forget (adminRun (recording updateUsers) (notRecording removeUser) events st)
    = adminRun updateUsers removeUser events (forget st).
Proof.
  intros updateUsers removeUser events st.
  split; [reflexivity|].
  exact (never_submits_an_empty_field updateUsers removeUser events st eq_refl).
Defined.

(** X15.  A submission either succeeds or changes nothing the user sees
    but one alert.  When both fields are filled and [updateUsers] returns,
    the modal closes, the form is emptied with the role set back to
    student, and nothing is alerted.  In every other case (an empty field,
    or [updateUsers] throwing) the modal and the text typed stay as they
    are and exactly one message is alerted; with an empty field the store
    is not touched. *)
Theorem handleAddUser_outcome {Store : Type}
    (updateUsers : string → string → AccountRole → Store → Store * option Thrown)
    (st : AdminState Store) :
  let st' := handleAddUser updateUsers st in
  let call := updateUsers (email (newUser st)) (password (newUser st))
                          (newUser_role (newUser st)) (authorizedUsers st) in
  (email (newUser st) ≠ "" ∧ password (newUser st) ≠ "" ∧ call.2 = None
   ∧ showAddModal st' = false
   ∧ newUser st' = mkNewUser "" "" StudentAccount
   ∧ alerts st' = alerts st
   ∧ authorizedUsers st' = call.1)
  ∨ (showAddModal st' = showAddModal st
     ∧ newUser st' = newUser st
     ∧ (∃ message, alerts st' = alerts st ++ [message])
     ∧ (email (newUser st) = "" ∨ password (newUser st) = "" →
        alerts st' = alerts st ++ ["Please fill in all fields"]
        ∧ authorizedUsers st' = authorizedUsers st)
     ∧ (email (newUser st) ≠ "" → password (newUser st) ≠ "" →
        ∃ error, call.2 = Some error
                 ∧ authorizedUsers st' = call.1
                 ∧ alerts st'
                   = alerts st ++ [errorMessage error "Failed to add user"])).
Proof.
  intros st' call. subst st' call. unfold handleAddUser.
  destruct (decide (email (newUser st) = "")) as [Hemail|Hemail].
  { rewrite bool_decide_eq_true_2 by done. simpl. right.
    split_and!; try done. by eexists. }
  destruct (decide (password (newUser st) = "")) as [Hpassword|Hpassword].
  { rewrite (bool_decide_eq_true_2 (password (newUser st) = "")) by done.
    rewrite orb_true_r. right.
    split_and!; try done. by eexists. }
  rewrite !bool_decide_eq_false_2 by done. simpl.
  destruct (updateUsers _ _ _ _) as [store [error|]]; simpl.
  - right. split_and!; try done; [by eexists|intros [?|?]; done|].
    intros _ _. by exists error.
  - left. done.
Qed.

(** X16.  Removing a user never touches the modal or the form.  When the
    confirmation is declined nothing happens at all; when it is accepted
    the store is what [removeUser] leaves and a message is alerted exactly
    when [removeUser] threw. *)
Theorem handleRemoveUser_outcome {Store : Type}
    (removeUser : string → AccountRole → Store → Store * option Thrown)
    (confirmed : bool) (id : string) (role : AccountRole)
    (st : AdminState Store) :
  let st' := handleRemoveUser removeUser confirmed id role st in
  let call := removeUser id role (authorizedUsers st) in
  showAddModal st' = showAddModal st
  ∧ newUser st' = newUser st
  ∧ (confirmed = false → st' = st)
  ∧ (confirmed = true →
     authorizedUsers st' = call.1
     ∧ alerts st'
       = alerts st
         ++ match call.2 with
            | Some error => [errorMessage error "Failed to remove user"]
            | None => []
            end).
Proof.
  intros st' call. subst st' call. unfold handleRemoveUser.
  destruct confirmed; [|done].
  destruct (removeUser id role (authorizedUsers st)) as [store [error|]]; simpl;
    split_and!; try done; intros _; by rewrite ?app_nil_r.
Qed.
